(** * Interactive behaviour of the portfolio page

    A shallow embedding of the page scripts: the timer facility of the
    host ([setTimeout], [setInterval]), the infinite carousel slider, the
    banner rotator, the contact-form validation and the mobile navigation
    menu, followed by the properties established for each of them.

    Numbers: every number the scripts compute with is an integer (an index,
    an [offsetWidth], their product).  They are modelled as [nat] and [Z];
    this agrees with the host's double arithmetic as long as the products
    stay below 2^53 in absolute value. *)

From Stdlib Require Import Ascii String Qcanon.
From stdpp Require Import base numbers list strings gmap pretty.

(** ** The timer facility

    Time is counted in milliseconds from the moment the script runs.  A
    timer fires exactly when it is due and a callback takes no time. *)

Module EventLoop.
Section Loop.
Context {St Cb : Type}.

(** A registered timer: the time it is due at (in ms since the script
    ran), the callback it invokes and, for [setInterval], its period. *)
Record timer := Timer { due : N; handler : Cb; every : option N }.

(** The timers still to fire, earliest first, and the page state the
    callbacks act on. *)
Record world := World { timers : list timer; page : St }.

(** A callback runs to completion on the page state and hands back the
    one-shot timers it asked for, as (delay, callback) pairs. *)
Variable run : Cb → St → St * list (N * Cb).

(** Timers due at the same time fire in the order they were registered. *)
Fixpoint enqueue (t : timer) (q : list timer) : list timer :=
  match q with
  | [] => [t]
  | u :: q' =>
      if decide (due t < due u)%N then t :: u :: q' else u :: enqueue t q'
  end.

Definition setTimeout (now : N) (q : list timer) (req : N * Cb)
  : list timer :=
  enqueue (Timer (now + req.1) req.2 None) q.

Definition setInterval (now : N) (q : list timer) (req : N * Cb)
  : list timer :=
  enqueue (Timer (now + req.1) req.2 (Some req.1)) q.

(** Run a callback at time [now] and register the timers it asked for. *)
Definition dispatch (now : N) (c : Cb) (w : world) : world :=
  let '(s, reqs) := run c (page w) in
  World (foldl (setTimeout now) (timers w) reqs) s.

(** Fire the earliest timer: run its callback and re-arm the timer
    when it is periodic. *)
Definition fire (w : world) : option world :=
  match timers w with
  | [] => None
  | t :: q =>
      let w := dispatch (due t) (handler t) (World q (page w)) in
      Some match every t with
           | Some p => World (setInterval (due t) (timers w) (p, handler t))
                         (page w)
           | None => w
           end
  end.

(** The world once every timer due at or before [t] has fired.  [fuel]
    bounds the number of callbacks; [None] means it did not suffice. *)
Fixpoint run_until (fuel : nat) (t : N) (w : world) : option world :=
  match timers w with
  | [] => Some w
  | u :: _ =>
      if decide (due u ≤ t)%N then
        match fuel with
        | 0 => None
        | S fuel' => fire w ≫= run_until fuel' t
        end
      else Some w
  end.

(** The world at time [t].  No more than [t + 1] callbacks are allowed
    for; the timers of these scripts fire less often than once per
    millisecond, so this is never the limiting factor. *)
Definition at_time (t : N) (w : world) : option world :=
  run_until (S (N.to_nat t)) t w.

(** The worlds the timers can lead to from [w0]. *)
Inductive reachable (w0 : world) : world → Prop :=
| reach_start : reachable w0 w0
| reach_fire w w' : reachable w0 w → fire w = Some w' → reachable w0 w'.

End Loop.
Arguments timer : clear implicits.
Arguments world : clear implicits.
End EventLoop.

Import EventLoop.

(** ** The infinite carousel slider *)

Module Carousel.

(** A child of the track: its identity as a DOM node, what it renders,
    and the width the layout gives it. *)
Record node := Node { ident : nat; html : string; offsetWidth : Z }.

(** The [.image-list] element: its live [children] collection and the
    two inline style properties the script writes. *)
Record track := Track {
  children : list node;
  transition : string;
  transform : string;
}.

(** The module-level variables of the script.  [slideItems] is
    [slides.children], a live collection, so it is read off [slides]. *)
Record state := State {
  slides : track;
  slideWidth : Z;
  currentIndex : nat;
}.

Definition slideItems (s : state) : list node := children (slides s).

(** [cloneNode(true)]: a new node rendering the same content. *)
Definition cloneNode (fresh : nat) (n : node) : node :=
  Node fresh (html n) (offsetWidth n).

(** [appendChild] of a node that is not in the document yet. *)
Definition appendChild (n : node) (t : track) : track :=
  Track (children t ++ [n]) (transition t) (transform t).

(** [insertBefore(n, ref)]: [n] goes right before the child [ref];
    the host raises when [ref] is not a child. *)
Fixpoint insertBefore (n : node) (ref : node) (l : list node)
  : option (list node) :=
  match l with
  | [] => None
  | x :: l' =>
      if decide (ident x = ident ref) then Some (n :: x :: l')
      else cons x <$> insertBefore n ref l'
  end.

(** The template literal [`translateX(${px}px)`]. *)
Definition translateX (px : Z) : string :=
  "translateX(" +:+ pretty px +:+ "px)".

Definition offset (s : state) : Z :=
  (- slideWidth s * Z.of_nat (currentIndex s))%Z.

(** The top-level statements that set the slider up.  [fresh] is the
    identity the host gives the next node it creates.  Indexing the
    empty collection yields [undefined], whose property access raises:
    the script stops, which is [None] here. *)
Definition build (fresh : nat) (slides : track) : option state :=
  first ← children slides !! 0;
  let slideWidth := offsetWidth first in
  let firstClone := cloneNode fresh first in
  last ← children slides !! (length (children slides) - 1);
  let lastClone := cloneNode (S fresh) last in
  let slides := appendChild firstClone slides in
  ref ← children slides !! 0;
  kids ← insertBefore lastClone ref (children slides);
  let currentIndex := 1 in
  Some (State
          (Track kids (transition slides)
             (translateX (- slideWidth * Z.of_nat currentIndex)))
          slideWidth currentIndex).

Inductive callback := SlideNext | Rewind.

Definition animated : string := "transform 0.5s ease-in-out".

(** [slides.style.transition = v] and [slides.style.transform = v]. *)
Definition set_transition (v : string) (t : track) : track :=
  Track (children t) v (transform t).

Definition set_transform (v : string) (t : track) : track :=
  Track (children t) (transition t) v.

(** The callback [slideNext] passes to [setTimeout]. *)
Definition rewind (s : state) : state :=
  let slides := set_transition "none" (slides s) in
  let currentIndex := 1 in
  let slides :=
    set_transform (translateX (- slideWidth s * Z.of_nat currentIndex))
      slides in
  State slides (slideWidth s) currentIndex.

(** [slideNext]: the new state and the timers it asks for. *)
Definition slideNext (s : state) : state * list (N * callback) :=
  let currentIndex := S (currentIndex s) in
  let slides := set_transition animated (slides s) in
  let slides :=
    set_transform (translateX (- slideWidth s * Z.of_nat currentIndex))
      slides in
  let s := State slides (slideWidth s) currentIndex in
  if decide (currentIndex = length (slideItems s))
  then (s, [(500%N, Rewind)])
  else (s, []).

Definition run (c : callback) (s : state) : state * list (N * callback) :=
  match c with
  | SlideNext => slideNext s
  | Rewind => (rewind s, [])
  end.

(** The whole script: set up, then [setInterval(slideNext, 3000)]. *)
Definition boot (fresh : nat) (slides : track)
  : option (world state callback) :=
  s ← build fresh slides;
  Some (World (setInterval 0 [] (3000%N, SlideNext)) s).

Definition at_time := EventLoop.at_time run.

(** What the viewport shows: the child the cursor points at, if any. *)
Definition shown (s : state) : option string :=
  html <$> slideItems s !! currentIndex s.

(** The schedule of the timers, from a state [s0] in which
    [setInterval(slideNext, 3000)] has just been called:
    [after_tick k] is the state the [k]-th tick leaves, [settle]
    applies the rewind that tick asked for, if any; [ticked k] is the
    world from the [k]-th tick until that rewind, [settled k] the
    world from then until the next tick. *)
Section Timeline.
Variable s0 : state.

Definition rewinding (s : state) : Prop :=
  currentIndex s = length (slideItems s).

Definition settle (s : state) : state :=
  if decide (rewinding s) then rewind s else s.

Fixpoint after_tick (k : nat) : state :=
  match k with
  | 0 => s0
  | S k' => (slideNext (settle (after_tick k'))).1
  end.

Definition next_tick (k : nat) : timer callback :=
  Timer (3000 * N.of_nat (S k)) SlideNext (Some 3000%N).

Definition ticked (k : nat) : world state callback :=
  World
    ((if decide (rewinding (after_tick k))
      then [Timer (3000 * N.of_nat k + 500) Rewind None] else [])
     ++ [next_tick k])
    (after_tick k).

Definition settled (k : nat) : world state callback :=
  World [next_tick k] (settle (after_tick k)).

End Timeline.

(** The cursor and the content on view at the end of the [k]-th
    interval, any rewind done. *)
Definition rendered (w0 : world state callback) (k : nat)
  : option (nat * option string) :=
  w ← at_time (3000 * N.of_nat k + 2999) w0;
  Some (currentIndex (page w), shown (page w)).

(** The slider at time [t] in short: cursor, transform, transition and
    the timers still to fire. *)
Definition glance (w0 : world state callback) (t : N)
  : option (nat * string * string * list (N * callback)) :=
  w ← at_time t w0;
  Some (currentIndex (page w), transform (slides (page w)),
        transition (slides (page w)),
        (λ u, (due u, handler u)) <$> timers w).

(** The transform is the one the cursor calls for. *)
Definition follows_cursor (s : state) : Prop :=
  transform (slides s) = translateX (offset s).

(** Right after the [k]-th tick the cursor is [1 + k mod (N+1)], as the
    specification has it. *)
Definition cursor_after_tick_as_stated (slides : track) (k : nat) : Prop :=
  ∀ w0 w,
    boot 10 slides = Some w0 →
    at_time (3000 * N.of_nat k) w0 = Some w →
    currentIndex (page w) = 1 + k mod (length (children slides) + 1).

Definition slide (i : nat) (name : string) (width : Z) : node :=
  Node i name width.

Definition two : track :=
  Track [slide 0 "a" 300; slide 1 "b" 300] "" "".

Definition three : track :=
  Track [slide 0 "a" 300; slide 1 "b" 300; slide 2 "c" 300] "" "".

End Carousel.

(** A statement either completes or raises; what it changed before
    raising stays changed. *)
Inductive completion := Normal | Throw.

(** ** The banner rotator *)

Module Banner.

(** A [.banner-image] element, reduced to its inline [display]. *)
Record banner := BannerImage { display : string }.

(** The elements [getElementsByClassName("banner-image")] returns, in
    document order, and the module-level [indexBanner]. *)
Record state := State { banners : list banner; indexBanner : nat }.

Definition set_display (v : string) (b : banner) : banner := BannerImage v.

(** [for (let i = 0; i < bannerList.length; i++)
       bannerList[i].style.display = "none"] *)
Definition hide_all (bannerList : list banner) : list banner :=
  foldl (λ l i, alter (set_display "none") i l) bannerList
    (seq 0 (length bannerList)).

Definition changeBackground (s : state) : state * completion :=
  let bannerList := banners s in
  let indexBanner :=
    if decide (length bannerList ≤ indexBanner s) then 0
    else indexBanner s in
  let bannerList := hide_all bannerList in
  match bannerList !! indexBanner with
  | None => (State bannerList indexBanner, Throw)
  | Some b =>
      (State (<[indexBanner := set_display "block" b]> bannerList)
         indexBanner, Normal)
  end.

Definition nextBanner (s : state) : state * completion :=
  changeBackground (State (banners s) (indexBanner s + 1)).

Inductive callback := NextBanner.

Definition run (c : callback) (s : state) : state * list (N * callback) :=
  match c with NextBanner => ((nextBanner s).1, []) end.

(** [let indexBanner = 0; changeBackground();
     setInterval(nextBanner, 3000)]; the script stops when the first
    call raises. *)
Definition boot (bannerList : list banner)
  : option (world state callback) :=
  match changeBackground (State bannerList 0) with
  | (s, Normal) => Some (World (setInterval 0 [] (3000%N, NextBanner)) s)
  | (_, Throw) => None
  end.

Definition at_time := EventLoop.at_time run.

(** Banner [i] is the only one displayed. *)
Definition only_shows (i : nat) (l : list banner) : Prop :=
  ∀ j b, l !! j = Some b →
         display b = if decide (j = i) then "block" else "none".

(** The page after [k] rotations, and the world it is part of until the
    next one. *)
Fixpoint rotated (bannerList : list banner) (k : nat) : state :=
  match k with
  | 0 => (changeBackground (State bannerList 0)).1
  | S k' => (nextBanner (rotated bannerList k')).1
  end.

Definition rotation (bannerList : list banner) (k : nat)
  : world state callback :=
  World [Timer (3000 * N.of_nat (S k)) NextBanner (Some 3000%N)]
    (rotated bannerList k).

Definition trio : list banner :=
  [BannerImage ""; BannerImage "block"; BannerImage "inline"].

End Banner.

(** ** The contact form *)

Module Form.

(** A string of the host: a sequence of UTF-16 code units. *)
Definition jsstring := list N.

Definition lit (s : string) : jsstring :=
  N_of_ascii <$> list_ascii_of_string s.

(** The code units [String.prototype.trim] strips: WhiteSpace and
    LineTerminator of the language definition. *)
Definition is_white_space (c : N) : bool :=
  bool_decide (c ∈ [9; 10; 11; 12; 13; 32; 160; 5760; 8232; 8233; 8239;
                    8287; 12288; 65279]%N)
  || bool_decide (8192 ≤ c ≤ 8202)%N.

Fixpoint trimStart (s : jsstring) : jsstring :=
  match s with
  | c :: s' => if is_white_space c then trimStart s' else s
  | [] => []
  end.

Definition trimEnd (s : jsstring) : jsstring :=
  reverse (trimStart (reverse s)).

Definition trim (s : jsstring) : jsstring := trimEnd (trimStart s).

(** A form control: its current value, the value a reset restores, and
    the [id] of the form that owns it. *)
Record control := Control {
  value : jsstring;
  defaultValue : jsstring;
  owner : option string;
}.

Inductive element := Field (c : control) | FormElement | Other.

(** The elements of the document that carry an [id]. *)
Record state := State {
  document : gmap string element;
  alerts : list jsstring;
  uncaught : nat;
}.

(** [document.getElementById(id).value.trim()]: reading a property of
    [null], or calling [trim] on [undefined], raises. *)
Definition trimmed_value (d : gmap string element) (id : string)
  : option jsstring :=
  match d !! id with
  | Some (Field c) => Some (trim (value c))
  | _ => None
  end.

(** Strings are truthy when they are not empty. *)
Definition truthy (s : jsstring) : bool :=
  match s with [] => false | _ => true end.

Definition thanks (name email : jsstring) : jsstring :=
  lit "Thank you, " ++ name ++ lit "! We have received your message."
    ++ [10%N] ++ lit "We will contact you at " ++ email ++ lit " soon.".

Definition please_fill : jsstring :=
  lit "Please fill out all fields before submitting the form.".

Inductive callback := FormValidation | ResetForm.

Definition raise (s : state) : state :=
  State (document s) (alerts s) (S (uncaught s)).

Definition alert (msg : jsstring) (s : state) : state :=
  State (document s) (alerts s ++ [msg]) (uncaught s).

Definition formValidation (s : state) : state * list (N * callback) :=
  match trimmed_value (document s) "name-input",
        trimmed_value (document s) "email",
        trimmed_value (document s) "message" with
  | Some name, Some email, Some message =>
      if truthy name && truthy email && truthy message
      then (alert (thanks name email) s, [(0%N, ResetForm)])
      else (alert please_fill s, [])
  | _, _, _ => (raise s, [])
  end.

(** [form.reset()]: every control the form owns takes its default
    value again. *)
Definition reset (form : string) (e : element) : element :=
  match e with
  | Field c =>
      if decide (owner c = Some form)
      then Field (Control (defaultValue c) (defaultValue c) (owner c))
      else e
  | _ => e
  end.

Definition resetForm (s : state) : state :=
  match document s !! "contact-form" with
  | Some FormElement =>
      State (reset "contact-form" <$> document s) (alerts s) (uncaught s)
  | _ => raise s
  end.

Definition run (c : callback) (s : state) : state * list (N * callback) :=
  match c with
  | FormValidation => formValidation s
  | ResetForm => (resetForm s, [])
  end.

(** A click on the submit button at time [now]. *)
Definition click (now : N) := EventLoop.dispatch run now FormValidation.

Definition at_time := EventLoop.at_time run.

(** A filled-in form whose e-mail field holds no [@]. *)
Definition field (v d : string) : element :=
  Field (Control (lit v) (lit d) (Some "contact-form")).

Definition filled : state :=
  State {[ "name-input" := field " Ann " "";
           "email" := field "nobody" "";
           "message" := field "hello" "Your message";
           "contact-form" := FormElement ]} [] 0.

End Form.

(** ** The mobile navigation menu *)

Module Navigation.

Record element := Element {
  classList : list string;
  attributes : gmap string string;
  style : gmap string string;
}.

(** The [Navigation] object's flag, the elements of the page, and the
    references [DOM.elements] caches ([None] for [null] or a property
    that was never cached; two references may name one element). *)
Record state := State {
  isMenuOpen : bool;
  store : gmap nat element;
  mobileToggle : option nat;
  nav : option nat;
  body : option nat;
}.

Definition set_isMenuOpen (b : bool) (s : state) : option state :=
  Some (State b (store s) (mobileToggle s) (nav s) (body s)).

(** A write through a reference; dereferencing [null] raises. *)
Definition update (ref : state → option nat) (f : element → element)
    (s : state) : option state :=
  r ← ref s;
  e ← store s !! r;
  Some (State (isMenuOpen s) (<[r := f e]> (store s))
          (mobileToggle s) (nav s) (body s)).

(** [classList] is an ordered set of tokens. *)
Definition classList_add (tok : string) (e : element) : element :=
  Element
    (if decide (tok ∈ classList e) then classList e
     else classList e ++ [tok])
    (attributes e) (style e).

Definition classList_remove (tok : string) (e : element) : element :=
  Element (filter (λ c, c ≠ tok) (classList e)) (attributes e) (style e).

Definition setAttribute (k v : string) (e : element) : element :=
  Element (classList e) (<[k := v]> (attributes e)) (style e).

Definition set_style (k v : string) (e : element) : element :=
  Element (classList e) (attributes e) (<[k := v]> (style e)).

(** Statements in sequence, up to the first that raises. *)
Fixpoint exec (body : list (state → option state)) (s : state)
  : state * completion :=
  match body with
  | [] => (s, Normal)
  | stmt :: rest =>
      match stmt s with
      | Some s' => exec rest s'
      | None => (s, Throw)
      end
  end.

Definition openMobileMenu (s : state) : state * completion :=
  if isMenuOpen s then (s, Normal)
  else exec [ set_isMenuOpen true;
              update mobileToggle (classList_add "active");
              update nav (classList_add "mobile-menu-open");
              update body (set_style "overflow" "hidden");
              update mobileToggle (setAttribute "aria-expanded" "true");
              update nav (setAttribute "aria-hidden" "false") ] s.

Definition closeMobileMenu (s : state) : state * completion :=
  if negb (isMenuOpen s) then (s, Normal)
  else exec [ set_isMenuOpen false;
              update mobileToggle (classList_remove "active");
              update nav (classList_remove "mobile-menu-open");
              update body (set_style "overflow" "");
              update mobileToggle (setAttribute "aria-expanded" "false");
              update nav (setAttribute "aria-hidden" "true") ] s.

(** A page whose toggle button is element 1, whose menu is element 2
    and whose body is element 3. *)
Definition closed_page : state :=
  State false
    {[ 1 := Element ["mobile-menu-toggle"] ∅ ∅;
       2 := Element ["nav"] ∅ ∅;
       3 := Element [] ∅ ∅ ]}
    (Some 1) (Some 2) (Some 3).

Definition opened_page : state :=
  State true
    {[ 1 := Element ["mobile-menu-toggle"; "active"]
              {[ "aria-expanded" := "true" ]} ∅;
       2 := Element ["nav"; "mobile-menu-open"]
              {[ "aria-hidden" := "false" ]} ∅;
       3 := Element [] ∅ {[ "overflow" := "hidden" ]} ]}
    (Some 1) (Some 2) (Some 3).

End Navigation.

(** ** Regular expressions and the e-mail pattern *)

Module Regex.

(** The patterns the scripts use, over code units: character classes,
    sequence and repetition; [Void] and [Alt] serve the matcher. *)
Inductive regex :=
| Void
| Empty
| Class (p : N → bool)
| Seq (r1 r2 : regex)
| Alt (r1 r2 : regex)
| Star (r : regex).

(** [r+] *)
Definition Plus (r : regex) : regex := Seq r (Star r).

(** The strings a pattern stands for. *)
Inductive Matches : regex → list N → Prop :=
| MEmpty : Matches Empty []
| MClass p c : p c = true → Matches (Class p) [c]
| MSeq r1 r2 s1 s2 :
    Matches r1 s1 → Matches r2 s2 → Matches (Seq r1 r2) (s1 ++ s2)
| MAltL r1 r2 s : Matches r1 s → Matches (Alt r1 r2) s
| MAltR r1 r2 s : Matches r2 s → Matches (Alt r1 r2) s
| MStarNil r : Matches (Star r) []
| MStarApp r s1 s2 :
    Matches r s1 → Matches (Star r) s2 → Matches (Star r) (s1 ++ s2).

Fixpoint nullable (r : regex) : bool :=
  match r with
  | Void => false
  | Empty => true
  | Class _ => false
  | Seq r1 r2 => nullable r1 && nullable r2
  | Alt r1 r2 => nullable r1 || nullable r2
  | Star _ => true
  end.

(** What is left of [r] once [c] has been read. *)
Fixpoint deriv (c : N) (r : regex) : regex :=
  match r with
  | Void => Void
  | Empty => Void
  | Class p => if p c then Empty else Void
  | Seq r1 r2 =>
      Alt (Seq (deriv c r1) r2) (if nullable r1 then deriv c r2 else Void)
  | Alt r1 r2 => Alt (deriv c r1) (deriv c r2)
  | Star r => Seq (deriv c r) (Star r)
  end.

(** [/^r$/.test(s)]: the whole of [s] is to match. *)
Definition test (r : regex) (s : list N) : bool :=
  nullable (foldl (λ r c, deriv c r) r s).

Definition at_sign : N := 64.
Definition full_stop : N := 46.

(** [[^\s@]]: any code unit but white space and the at sign. *)
Definition not_space_at (c : N) : bool :=
  negb (Form.is_white_space c || (c =? at_sign)%N).

(** [CONFIG.form.emailRegex], [/^[^\s@]+@[^\s@]+\.[^\s@]+$/]. *)
Definition emailRegex : regex :=
  Seq (Plus (Class not_space_at))
    (Seq (Class (N.eqb at_sign))
       (Seq (Plus (Class not_space_at))
          (Seq (Class (N.eqb full_stop)) (Plus (Class not_space_at))))).

(** [Utils.isValidEmail] *)
Definition isValidEmail (email : Form.jsstring) : bool :=
  test emailRegex email.

End Regex.

(** ** [Utils.debounce] and [Utils.throttle]

    Both return a closure that keeps a variable of its own and sets
    timers whose callbacks set no timers in turn.  [clearTimeout] is
    needed here, so timers carry the identifier the host returns. *)

Module Closures.
Section Timers.
Context {St K : Type}.

(** A timer: the identifier [setTimeout] returned, the time it is due
    at, and what its callback closes over. *)
Record timer := Timer { id : positive; due : N; memo : K }.

Record host := Host { timers : list timer; next_id : positive; vars : St }.

(** The callback of a timer, run at the time the timer is due. *)
Variable later : K → N → St → St.

Fixpoint enqueue (t : timer) (q : list timer) : list timer :=
  match q with
  | [] => [t]
  | u :: q' =>
      if decide (due t < due u)%N then t :: u :: q' else u :: enqueue t q'
  end.

Definition setTimeout (now delay : N) (k : K) (h : host) : positive * host :=
  (next_id h,
   Host (enqueue (Timer (next_id h) (now + delay) k) (timers h))
     (Pos.succ (next_id h)) (vars h)).

(** [clearTimeout(i)]; [None] stands for [undefined] and [null], which
    name no timer. *)
Definition clearTimeout (i : option positive) (h : host) : host :=
  match i with
  | Some i => Host (filter (λ u, id u ≠ i) (timers h)) (next_id h) (vars h)
  | None => h
  end.

Fixpoint fire_due (t : N) (q : list timer) (v : St) : list timer * St :=
  match q with
  | u :: q' =>
      if decide (due u ≤ t)%N then fire_due t q' (later (memo u) (due u) v)
      else (q, v)
  | [] => ([], v)
  end.

(** Let the timers due at or before [t] fire. *)
Definition advance (t : N) (h : host) : host :=
  let '(q, v) := fire_due t (timers h) (vars h) in
  Host q (next_id h) v.

End Timers.
Arguments timer : clear implicits.
Arguments host : clear implicits.
End Closures.

Module Debounce.
Import Closures.
Section Debounced.
Context {A : Type}.

(** [debounce(func, wait, immediate)]; [A] is what [func] is called
    with. *)
Variables (wait : N) (immediate : bool).

(** The closure variable [timeout] and, to observe [func], the calls
    made to it: when and with what. *)
Record closure := Closure { timeout : option positive; calls : list (N * A) }.

Definition func (now : N) (a : A) (v : closure) : closure :=
  Closure (timeout v) (calls v ++ [(now, a)]).

Definition later (a : A) (now : N) (v : closure) : closure :=
  let v := Closure None (calls v) in
  if negb immediate then func now a v else v.

(** A timer identifier is a positive number, hence truthy. *)
Definition executedFunction (now : N) (a : A) (h : host closure A)
  : host closure A :=
  let callNow := immediate && negb (bool_decide (is_Some (timeout (vars h)))) in
  let h := clearTimeout (timeout (vars h)) h in
  let '(i, h) := setTimeout now wait a h in
  let h := Host (timers h) (next_id h) (Closure (Some i) (calls (vars h))) in
  if callNow then Host (timers h) (next_id h) (func now a (vars h)) else h.

Definition init : host closure A := Host [] 1%positive (Closure None []).

(** A call at time [t]: the timers due by then have fired. *)
Definition handle (h : host closure A) (e : N * A) : host closure A :=
  executedFunction e.1 e.2 (advance later e.1 h).

Definition run (events : list (N * A)) : host closure A :=
  foldl handle init events.

(** The calls that come at least [wait] after the call before them. *)
Fixpoint leading (prev : option N) (events : list (N * A)) : list (N * A) :=
  match events with
  | [] => []
  | e :: events' =>
      (if match prev with
          | None => true
          | Some p => bool_decide (p + wait ≤ e.1)%N
          end
       then [e] else [])
      ++ leading (Some e.1) events'
  end.

(** The calls followed by no call for [wait], up to time [horizon],
    each moved to the end of its wait. *)
Fixpoint trailing (horizon : N) (events : list (N * A)) : list (N * A) :=
  match events with
  | [] => []
  | e :: events' =>
      (if bool_decide (e.1 + wait ≤ default horizon (fst <$> head events'))%N
       then [((e.1 + wait)%N, e.2)] else [])
      ++ trailing horizon events'
  end.

(** Each call comes less than [wait] after the one before. *)
Fixpoint burst (prev : N) (events : list (N * A)) : Prop :=
  match events with
  | [] => True
  | e :: events' => (prev ≤ e.1 < prev + wait)%N ∧ burst e.1 events'
  end.

End Debounced.
End Debounce.

Module Throttle.
Import Closures.
Section Throttled.
Context {A : Type}.

(** [throttle(func, limit)] *)
Variable limit : N.

Record closure := Closure { inThrottle : bool; calls : list (N * A) }.

Definition later (_ : unit) (now : N) (v : closure) : closure :=
  Closure false (calls v).

Definition throttled (now : N) (a : A) (h : host closure unit)
  : host closure unit :=
  if negb (inThrottle (vars h)) then
    let h := Host (timers h) (next_id h)
               (Closure (inThrottle (vars h)) (calls (vars h) ++ [(now, a)])) in
    let h := Host (timers h) (next_id h) (Closure true (calls (vars h))) in
    (setTimeout now limit () h).2
  else h.

Definition init : host closure unit := Host [] 1%positive (Closure false []).

Definition handle (h : host closure unit) (e : N * A) : host closure unit :=
  throttled e.1 e.2 (advance later e.1 h).

Definition run (events : list (N * A)) : host closure unit :=
  foldl handle init events.

(** The calls that come at least [limit] after the last call let
    through. *)
Fixpoint spaced (last : option N) (events : list (N * A)) : list (N * A) :=
  match events with
  | [] => []
  | e :: events' =>
      if match last with
         | None => true
         | Some p => bool_decide (p + limit ≤ e.1)%N
         end
      then e :: spaced (Some e.1) events'
      else spaced last events'
  end.

End Throttled.
End Throttle.

(** ** The listeners of the navigation menu *)

Module Handlers.
Import Navigation.

Definition toggleMobileMenu (s : state) : state * completion :=
  if isMenuOpen s then closeMobileMenu s else openMobileMenu s.

(** What [Utils.getViewportWidth] reads: the two widths, in whole
    pixels, [None] where the host has no such property. *)
Record viewport := Viewport {
  clientWidth : option Z;
  innerWidth : option Z;
}.

(** [x || 0] for a number or [undefined]. *)
Definition or_zero (x : option Z) : Z :=
  match x with
  | Some x => if decide (x = 0%Z) then 0%Z else x
  | None => 0%Z
  end.

Definition getViewportWidth (v : viewport) : Z :=
  (or_zero (clientWidth v) `max` or_zero (innerWidth v))%Z.

(** [CONFIG.breakpoints] *)
Definition mobile : Z := 480.
Definition tablet : Z := 768.

Definition isMobile (v : viewport) : bool :=
  bool_decide (getViewportWidth v ≤ mobile)%Z.

Definition isTablet (v : viewport) : bool :=
  let width := getViewportWidth v in
  bool_decide (mobile < width)%Z && bool_decide (width ≤ tablet)%Z.

Definition handleEscapeKey (key : string) (s : state)
  : state * completion :=
  if bool_decide (key = "Escape") && isMenuOpen s then closeMobileMenu s
  else (s, Normal).

Definition handleResize (v : viewport) (s : state) : state * completion :=
  if bool_decide (tablet < getViewportWidth v)%Z && isMenuOpen s
  then closeMobileMenu s
  else (s, Normal).

(** [ScrollEffects.handleSwipe], on screen coordinates in whole
    pixels. *)
Definition handleSwipe (startY endY : Z) (s : state) : state * completion :=
  let swipeThreshold := 50%Z in
  let diff := (startY - endY)%Z in
  if bool_decide (swipeThreshold < Z.abs diff)%Z && bool_decide (0 < diff)%Z
  then if isMenuOpen s then closeMobileMenu s else (s, Normal)
  else (s, Normal).

Section Tree.
(** [contains a b]: node [b] is [a] or lies inside it. *)
Variable contains : nat → nat → bool.

(** [node.contains(target)] through a cached reference. *)
Definition contains_target (ref : option nat) (target : nat)
  : option bool :=
  r ← ref; Some (contains r target).

Definition handleOutsideClick (target : nat) (s : state)
  : state * completion :=
  if negb (isMenuOpen s) then (s, Normal)
  else
    match contains_target (nav s) target with
    | None => (s, Throw)
    | Some isClickInsideNav =>
        match contains_target (mobileToggle s) target with
        | None => (s, Throw)
        | Some isClickOnToggle =>
            if negb isClickInsideNav && negb isClickOnToggle
            then closeMobileMenu s
            else (s, Normal)
        end
    end.

(** What the listeners bound in [bindEvents] and [setupTouchHandlers]
    can be called with. *)
Inductive event :=
| ToggleClick
| LinkClick
| DocumentClick (target : nat)
| KeyDown (key : string)
| Resize (v : viewport)
| Swipe (startY endY : Z).

Definition listener (ev : event) (s : state) : state * completion :=
  match ev with
  | ToggleClick => toggleMobileMenu s
  | LinkClick => closeMobileMenu s
  | DocumentClick target => handleOutsideClick target s
  | KeyDown key => handleEscapeKey key s
  | Resize v => handleResize v s
  | Swipe startY endY => handleSwipe startY endY s
  end.

Definition listeners (evs : list event) (s : state) : state :=
  foldl (λ s ev, (listener ev s).1) s evs.

End Tree.

(** The element a cached reference leads to. *)
Inductive part := Toggle | Nav | Body.

Definition ref (p : part) : state → option nat :=
  match p with
  | Toggle => mobileToggle
  | Nav => nav
  | Body => body
  end.

Definition at_part (p : part) (s : state) : option element :=
  ref p s ≫= (store s !!.).

Definition holds (p : part) (P : element → Prop) (s : state) : Prop :=
  ∃ e, at_part p s = Some e ∧ P e.

(** The three elements are there. *)
Definition present (s : state) : Prop :=
  ∀ p, is_Some (at_part p s).

(** What an open menu looks like, and a closed one. *)
Definition shows_open (s : state) : Prop :=
  isMenuOpen s = true ∧
  holds Toggle (λ e, "active" ∈ classList e ∧
                      attributes e !! "aria-expanded" = Some "true") s ∧
  holds Nav (λ e, "mobile-menu-open" ∈ classList e ∧
                   attributes e !! "aria-hidden" = Some "false") s ∧
  holds Body (λ e, style e !! "overflow" = Some "hidden") s.

Definition shows_closed (s : state) : Prop :=
  isMenuOpen s = false ∧
  holds Toggle (λ e, "active" ∉ classList e) s ∧
  holds Nav (λ e, "mobile-menu-open" ∉ classList e) s ∧
  present s.

Definition in_sync (s : state) : Prop := shows_open s ∨ shows_closed s.

(** Two elements that differ at most in the two classes, the two aria
    attributes and the one style property the menu is about. *)
Definition same_rest (e e' : element) : Prop :=
  (∀ tok, tok ≠ "active" → tok ≠ "mobile-menu-open" →
          tok ∈ classList e' ↔ tok ∈ classList e) ∧
  (∀ k, k ≠ "aria-expanded" → k ≠ "aria-hidden" →
        attributes e' !! k = attributes e !! k) ∧
  (∀ k, k ≠ "overflow" → style e' !! k = style e !! k).

(** Two pages with the same references and the same elements, which
    differ at most in that way, and only where a reference leads. *)
Definition framed (s s' : state) : Prop :=
  (∀ p, ref p s' = ref p s) ∧
  ∀ r,
    match store s !! r, store s' !! r with
    | Some e, Some e' => same_rest e e' ∧ ((∀ p, ref p s ≠ Some r) → e' = e)
    | None, None => True
    | _, _ => False
    end.

End Handlers.

(** ** The header on scroll, and the debounced listeners *)

Module ScrollEffects.
Import Navigation.

(** [ScrollEffects.lastScrollY] and the element [DOM.elements.header],
    [None] for [null].  A scroll position is any finite number. *)
Record state := State { lastScrollY : Qc; header : option element }.

(** [CONFIG.scroll] *)
Definition threshold : Qc := Qc_of_Z 50.
Definition debounceDelay : N := 10.

(** [updateHeader], given what [window.scrollY] holds when it runs. *)
Definition updateHeader (scrollY : Qc) (s : state) : state :=
  match header s with
  | None => s
  | Some h =>
      let h :=
        if decide (threshold < scrollY)%Qc then classList_add "scrolled" h
        else classList_remove "scrolled" h in
      State (if decide (scrollY ≤ 0)%Qc then 0%Qc else scrollY) (Some h)
  end.

(** [setupHeaderEffects] binds [updateHeader], debounced by
    [debounceDelay] ms with [immediate] at its default, to the scroll
    event, if there is a header.  The page after the scroll events
    [events], each with its time and the [scrollY] of that moment. *)
Definition scrolled (events : list (N * Qc)) (s : state) : state :=
  match header s with
  | None => s
  | Some _ =>
      foldl (λ s c, updateHeader c.2 s) s
        (Debounce.calls
           (Closures.vars (Debounce.run debounceDelay true events)))
  end.

(** [Navigation.bindEvents] binds [handleResize], debounced by 250 ms,
    to the resize event.  The menu after the resize events [events],
    each with its time and the viewport of that moment. *)
Definition resized (events : list (N * Handlers.viewport))
    (s : Navigation.state) : Navigation.state :=
  foldl (λ s c, (Handlers.handleResize c.2 s).1) s
    (Debounce.calls (Closures.vars (Debounce.run 250 true events))).

End ScrollEffects.

(** ** The form handler *)

Module FormHandler.
Import Form Regex.

(** An [input] or [textarea] of the contact form: its [name] and [type]
    properties, its value, whether it has the [required] attribute, and
    the two marks of an error. *)
Record input := Input {
  name : jsstring;
  type : jsstring;
  value : jsstring;
  required : bool;
  borderColor : string;
  ariaInvalid : option string;
}.

(** [input.name || input.type] *)
Definition key (i : input) : jsstring :=
  if truthy (name i) then name i else type i.

(** [data[k] = v] on a plain object, for a string [v]: the setter of
    [__proto__] ignores it. *)
Definition assign (k v : jsstring) (data : gmap jsstring jsstring)
  : gmap jsstring jsstring :=
  if decide (k = lit "__proto__") then data else <[k := v]> data.

Definition getFormData (inputs : list input) : gmap jsstring jsstring :=
  foldl (λ data i, assign (key i) (trim (value i)) data) ∅ inputs.

Definition setFieldError (f : input) : input :=
  Input (name f) (type f) (value f) (required f) "#ef4444" (Some "true").

Definition clearFieldError (f : input) : input :=
  Input (name f) (type f) (value f) (required f) "" None.

Definition validateField (f : input) : input * bool :=
  let value := trim (value f) in
  let isValid :=
    if required f && negb (truthy value) then false
    else if bool_decide (type f = lit "email") && truthy value
            && negb (isValidEmail value) then false
    else true in
  (if isValid then clearFieldError f else setFieldError f, isValid).

(** What [validateForm] calls, in order: [clearFieldError] on every
    input, [setFieldError] on what one of its three selectors finds, and
    [showMessage]. *)
Inductive target := NameInput | EmailInput | MessageInput.

Inductive call :=
| ClearFieldErrors
| SetFieldError (t : target)
| ShowError (message : jsstring).

(** [!v || v.length === 0] for a string or [undefined]. *)
Definition missing (v : option jsstring) : bool :=
  match v with
  | Some v => negb (truthy v) || bool_decide (length v = 0)
  | None => true
  end.

(** [errors.join("\n")] *)
Fixpoint join (errors : list jsstring) : jsstring :=
  match errors with
  | [] => []
  | [e] => e
  | e :: errors' => e ++ [10%N] ++ join errors'
  end.

Definition validateForm (formData : gmap jsstring jsstring)
  : list call * bool :=
  let calls := [ClearFieldErrors] in
  let '(errors, calls) :=
    if missing (formData !! lit "text")
    then ([lit "Name is required"], calls ++ [SetFieldError NameInput])
    else ([], calls) in
  let '(errors, calls) :=
    if missing (formData !! lit "email")
    then (errors ++ [lit "Email is required"],
          calls ++ [SetFieldError EmailInput])
    else if negb (isValidEmail (default [] (formData !! lit "email")))
    then (errors ++ [lit "Please enter a valid email address"],
          calls ++ [SetFieldError EmailInput])
    else (errors, calls) in
  let '(errors, calls) :=
    if missing (formData !! lit "textarea")
    then (errors ++ [lit "Message is required"],
          calls ++ [SetFieldError MessageInput])
    else (errors, calls) in
  if bool_decide (0 < length errors)
  then (calls ++ [ShowError (join errors)], false)
  else (calls, true).

End FormHandler.

(** ** The reveal animations *)

Module Animations.

(** The inline style properties the animations write. *)
Record style := Style {
  opacity : string;
  transform : string;
  transition : string;
  transitionDelay : string;
}.

(** [CONFIG.animations] *)
Definition duration : N := 300.
Definition easing : string := "cubic-bezier(0.4, 0, 0.2, 1)".
Definition stagger : N := 100.

Definition prepareElementForAnimation (index : N) (e : style) : style :=
  Style "0" "translateY(30px)"
    ("opacity " +:+ pretty duration +:+ "ms " +:+ easing
     +:+ ", transform " +:+ pretty duration +:+ "ms " +:+ easing)
    (pretty (index * stagger)%N +:+ "ms").

Definition animateElement (e : style) : style :=
  Style "1" "translateY(0)" (transition e) (transitionDelay e).

(** The timer callbacks of [fallbackAnimations]: each animates the
    element it closed over. *)
Inductive callback := Animate (element : nat).

Definition run (c : callback) (page : gmap nat style)
  : gmap nat style * list (N * callback) :=
  match c with
  | Animate element => (alter animateElement element page, [])
  end.

(** [fallbackAnimations], called at time [now] on a page whose elements
    have the styles [page]; [sections] and [animatedCards] are the two
    cached lists of elements, which may share elements. *)
Definition fallbackAnimations (now : N) (sections animatedCards : list nat)
    (page : gmap nat style) : world (gmap nat style) callback :=
  let elements := sections ++ animatedCards in
  World
    (foldl (setTimeout now) []
       (imap (λ index element,
                ((N.of_nat index * stagger)%N, Animate element))
          elements))
    page.

Definition at_time := EventLoop.at_time run.

End Animations.

(** * Properties *)

(** Counting modulo [m], one step at a time. *)
Lemma mod_succ (k m : nat) :
  0 < m →
  S k mod m = if decide (k mod m = m - 1) then 0 else S (k mod m).
Proof.
  intros Hm.
  pose proof (Nat.div_mod_eq k m) as Hk.
  pose proof (Nat.mod_upper_bound k m ltac:(lia)) as Hlt.
  case_decide as Hc.
  - symmetry. apply (Nat.mod_unique _ _ (S (k / m))); [lia|]. nia.
  - symmetry. apply (Nat.mod_unique _ _ (k / m)); [lia|]. nia.
Qed.

(** ** The timer facility *)

Module EventLoopFacts.
Section Facts.
Context {St Cb : Type} (run : Cb → St → St * list (N * Cb)).
Implicit Types (w : world St Cb) (u : timer Cb) (q : list (timer Cb)).

Lemma dispatch_eq now c w :
  dispatch run now c w =
  World (foldl (setTimeout now) (timers w) (run c (page w)).2)
    (run c (page w)).1.
Proof. unfold dispatch. by destruct (run c (page w)). Qed.

Lemma fire_cons u q s :
  fire run (World (u :: q) s) =
  let q1 := foldl (setTimeout (due u)) q (run (handler u) s).2 in
  Some (World
          match every u with
          | Some p => setInterval (due u) q1 (p, handler u)
          | None => q1
          end
          (run (handler u) s).1).
Proof.
  unfold fire. cbn [timers page]. rewrite dispatch_eq.
  by destruct (every u).
Qed.

Lemma run_until_idle fuel t w :
  (∀ u, head (timers w) = Some u → (t < due u)%N) →
  run_until run fuel t w = Some w.
Proof.
  intros Hq. destruct fuel, w as [[|u q] s]; simpl in *; try done;
    specialize (Hq u eq_refl); by rewrite decide_False by lia.
Qed.

Lemma run_until_fire fuel t w u q :
  timers w = u :: q → (due u ≤ t)%N →
  run_until run (S fuel) t w = fire run w ≫= run_until run fuel t.
Proof. intros Hq Hu. simpl. rewrite Hq. by rewrite decide_True. Qed.

(** More fuel never changes an answer already reached. *)
Lemma run_until_mono fuel fuel' t w w' :
  run_until run fuel t w = Some w' → fuel ≤ fuel' →
  run_until run fuel' t w = Some w'.
Proof.
  revert fuel' w. induction fuel as [|fuel IH]; intros fuel' w Hrun Hle.
  - destruct fuel', w as [[|u q] s]; simpl in *; try done;
      by destruct (decide (due u ≤ t)%N).
  - destruct fuel' as [|fuel']; [lia|].
    destruct w as [[|u q] s]; [done|].
    simpl in *. destruct (decide (due u ≤ t)%N); [|done].
    apply IH; [done|lia].
Qed.

End Facts.
End EventLoopFacts.

(** ** The carousel *)

Module CarouselFacts.
Import Carousel EventLoopFacts.

(** *** One callback at a time *)

Lemma slideNext_state s :
  (slideNext s).1 =
  State (Track (slideItems s) animated
           (translateX (- slideWidth s * Z.of_nat (S (currentIndex s)))))
    (slideWidth s) (S (currentIndex s)).
Proof. unfold slideNext. simpl. by case_decide. Qed.

Lemma slideNext_requests s :
  (slideNext s).2 =
  if decide (S (currentIndex s) = length (slideItems s))
  then [(500%N, Rewind)] else [].
Proof. unfold slideNext, slideItems. simpl. by case_decide. Qed.

(** *** The schedule the timers follow *)
Section Timeline.
Variable s0 : state.
Local Abbreviation after_tick := (Carousel.after_tick s0).
Local Abbreviation ticked := (Carousel.ticked s0).
Local Abbreviation settled := (Carousel.settled s0).

Lemma fire_settled k : fire run (settled k) = Some (ticked (S k)).
Proof.
  unfold Carousel.settled, Carousel.ticked. rewrite fire_cons.
  unfold next_tick at 1 2 3 4 5 6.
  cbn [timers page handler due every run].
  rewrite slideNext_requests.
  change (slideNext (settle (after_tick k))).1 with (after_tick (S k)).
  replace (S (currentIndex (settle (after_tick k))))
    with (currentIndex (after_tick (S k)))
    by (simpl; by rewrite slideNext_state).
  replace (length (slideItems (settle (after_tick k))))
    with (length (slideItems (after_tick (S k))))
    by (simpl; by rewrite slideNext_state).
  unfold rewinding, setInterval, setTimeout, next_tick.
  case_decide; cbn [foldl enqueue fst snd due app].
  - rewrite decide_False by lia.
    replace (3000 * N.of_nat (S k) + 3000)%N
      with (3000 * N.of_nat (S (S k)))%N by lia. done.
  - replace (3000 * N.of_nat (S k) + 3000)%N
      with (3000 * N.of_nat (S (S k)))%N by lia. done.
Qed.

Lemma fire_ticked k :
  rewinding (after_tick k) → fire run (ticked k) = Some (settled k).
Proof.
  intros Hr. unfold Carousel.settled, Carousel.ticked, settle.
  rewrite !decide_True by done. cbn [app]. by rewrite fire_cons.
Qed.

Lemma ticked_settled k :
  ¬ rewinding (after_tick k) → ticked k = settled k.
Proof.
  intros Hr. unfold Carousel.settled, Carousel.ticked, settle.
  by rewrite !decide_False by done.
Qed.

(** Where the page is once the [k+j]-th tick has fired, seen from the
    [k]-th. *)
Lemma run_until_ticked j : ∀ k fuel t,
  (3000 * N.of_nat (k + j) ≤ t < 3000 * N.of_nat (S (k + j)))%N →
  2 * j + 1 ≤ fuel →
  run_until run fuel t (ticked k) =
  Some (if decide (t < 3000 * N.of_nat (k + j) + 500)%N
        then ticked (k + j) else settled (k + j)).
Proof.
  induction j as [|j IH]; intros k fuel t Ht Hfuel.
  - rewrite Nat.add_0_r in *.
    destruct (decide (rewinding (after_tick k))) as [Hr|Hr].
    + case_decide.
      * apply run_until_idle. unfold Carousel.ticked.
        rewrite decide_True by done.
        simpl. intros u [= <-]. simpl. lia.
      * destruct fuel as [|fuel]; [lia|].
        erewrite run_until_fire;
          [|unfold Carousel.ticked; by rewrite decide_True by done
           |simpl; lia].
        rewrite fire_ticked by done. simpl.
        apply run_until_idle. simpl. intros u [= <-]. simpl. lia.
    + rewrite ticked_settled by done.
      replace (if decide (t < 3000 * N.of_nat k + 500)%N
               then settled k else settled k) with (settled k)
        by by case_decide.
      apply run_until_idle. simpl. intros u [= <-]. simpl. lia.
  - assert (run_until run (S (2 * j + 1)) t (settled k) =
            Some (if decide (t < 3000 * N.of_nat (k + S j) + 500)%N
                  then ticked (k + S j) else settled (k + S j)))
      as Hsettled.
    { erewrite run_until_fire; [|done|simpl; lia].
      rewrite fire_settled. simpl.
      replace (k + S j) with (S k + j) by lia.
      apply IH; [|lia]. replace (S k + j) with (k + S j) by lia. lia. }
    destruct (decide (rewinding (after_tick k))) as [Hr|Hr].
    + destruct fuel as [|fuel]; [lia|].
      erewrite run_until_fire;
        [|unfold Carousel.ticked; by rewrite decide_True by done
         |simpl; lia].
      rewrite fire_ticked by done. simpl.
      eapply run_until_mono; [exact Hsettled|lia].
    + rewrite ticked_settled by done.
      eapply run_until_mono; [exact Hsettled|lia].
Qed.

End Timeline.

(** *** Setting the slider up *)

Lemma build_cons fresh first rest tr tf :
  build fresh (Track (first :: rest) tr tf) =
  Some (State
          (Track
             (cloneNode (S fresh) (default first (last rest))
                :: (first :: rest) ++ [cloneNode fresh first])
             tr (translateX (- offsetWidth first)))
          (offsetWidth first) 1).
Proof.
  unfold build. cbn [children mbind option_bind lookup list_lookup].
  replace (length (first :: rest) - 1) with (pred (length (first :: rest)))
    by (simpl; lia).
  rewrite <- last_lookup, last_cons. cbn [appendChild children app].
  cbn [lookup list_lookup mbind option_bind insertBefore].
  replace (- offsetWidth first * Z.of_nat 1)%Z with (- offsetWidth first)%Z
    by lia.
  destruct (last rest); cbn [mbind option_bind default];
    by rewrite decide_True by done.
Qed.


(** *** What the callbacks keep *)

Lemma run_follows_cursor c s : follows_cursor (run c s).1.
Proof. destruct c; simpl; [by rewrite slideNext_state|done]. Qed.

Lemma run_slideWidth c s : slideWidth (run c s).1 = slideWidth s.
Proof. destruct c; simpl; [by rewrite slideNext_state|done]. Qed.

Lemma run_slideItems c s : slideItems (run c s).1 = slideItems s.
Proof. destruct c; simpl; [by rewrite slideNext_state|done]. Qed.

Lemma fire_page (w w' : world state callback) :
  fire run w = Some w' →
  ∃ c, page w' = (run c (page w)).1.
Proof.
  destruct w as [[|u q] s]; [done|]. rewrite fire_cons.
  intros [= <-]. by exists (handler u).
Qed.

(** *** The cursor along the schedule *)

Section Cursor.
Variable s0 : state.
Hypothesis Hstart : currentIndex s0 = 1.
Hypothesis Hlen : 3 ≤ length (slideItems s0).
Local Abbreviation after_tick := (Carousel.after_tick s0).
Local Abbreviation m := (length (slideItems s0) - 1).

Lemma settle_slideItems s : slideItems (settle s) = slideItems s.
Proof. unfold settle. by case_decide. Qed.

Lemma settle_slideWidth s : slideWidth (settle s) = slideWidth s.
Proof. unfold settle. by case_decide. Qed.

Lemma after_tick_slideItems k : slideItems (after_tick k) = slideItems s0.
Proof.
  induction k as [|k IH]; [done|]. simpl.
  by rewrite slideNext_state, settle_slideItems.
Qed.

Lemma after_tick_slideWidth k : slideWidth (after_tick k) = slideWidth s0.
Proof.
  induction k as [|k IH]; [done|]. simpl.
  by rewrite slideNext_state, settle_slideWidth.
Qed.

Lemma settle_cursor k :
  currentIndex (settle (after_tick k)) = 1 + k mod m.
Proof.
  induction k as [|k IH].
  - simpl. unfold settle, rewinding. rewrite decide_False by lia.
    rewrite Hstart, Nat.Div0.mod_0_l. done.
  - unfold settle, rewinding. rewrite after_tick_slideItems.
    cbn [Carousel.after_tick]. rewrite slideNext_state.
    cbn [currentIndex]. rewrite IH, mod_succ by lia.
    pose proof (Nat.mod_upper_bound k m ltac:(lia)).
    repeat case_decide; simpl; lia.
Qed.

Lemma after_tick_cursor k :
  currentIndex (after_tick (S k)) = 2 + k mod m.
Proof.
  cbn [Carousel.after_tick]. rewrite slideNext_state. cbn [currentIndex].
  by rewrite settle_cursor.
Qed.

Lemma after_tick_rewinding k :
  rewinding (after_tick k) ↔ 0 < k ∧ k mod m = 0.
Proof.
  unfold rewinding. rewrite after_tick_slideItems.
  destruct k as [|k].
  - simpl. rewrite Hstart. lia.
  - rewrite after_tick_cursor, mod_succ by lia.
    pose proof (Nat.mod_upper_bound k m ltac:(lia)).
    case_decide; lia.
Qed.

End Cursor.

(** *** The page at a given time *)

Lemma boot_cons fresh first rest tr tf :
  ∃ s0,
    build fresh (Track (first :: rest) tr tf) = Some s0 ∧
    boot fresh (Track (first :: rest) tr tf) = Some (ticked s0 0) ∧
    currentIndex s0 = 1 ∧
    length (slideItems s0) = S (length rest) + 2 ∧
    slideWidth s0 = offsetWidth first.
Proof.
  eexists. split; [apply build_cons|]. unfold boot.
  rewrite build_cons. cbn [mbind option_bind].
  split_and!; try done.
  unfold slideItems. simpl. rewrite length_app. simpl. lia.
Qed.

Lemma at_time_ticked s0 k t :
  (3000 * N.of_nat k ≤ t < 3000 * N.of_nat k + 500)%N →
  at_time t (ticked s0 0) = Some (ticked s0 k).
Proof.
  intros Ht. unfold at_time, EventLoop.at_time.
  rewrite (run_until_ticked s0 k 0) by (simpl; lia).
  simpl. by rewrite decide_True by lia.
Qed.

Lemma at_time_settled s0 k t :
  (3000 * N.of_nat k + 500 ≤ t < 3000 * N.of_nat (S k))%N →
  at_time t (ticked s0 0) = Some (settled s0 k).
Proof.
  intros Ht. unfold at_time, EventLoop.at_time.
  rewrite (run_until_ticked s0 k 0) by (simpl; lia).
  simpl. by rewrite decide_False by lia.
Qed.

(** A tick asks for a rewind exactly when it moves the cursor onto the
    length of the live collection, clones included. *)
Lemma slideNext_rewind_iff fresh first rest tr tf s0 k :
  build fresh (Track (first :: rest) tr tf) = Some s0 →
  let s := settle (after_tick s0 k) in
  (slideNext s).2 = [(500%N, Rewind)] ↔
  S (currentIndex s) = length (first :: rest) + 2.
Proof.
  intros Hb. destruct (boot_cons fresh first rest tr tf)
    as (s0' & Hb' & _ & Hc & Hl & _).
  assert (s0' = s0) as -> by congruence. simpl.
  rewrite slideNext_requests, settle_slideItems, after_tick_slideItems, Hl.
  simpl. case_decide; split; try done; lia.
Qed.

(** The rewind leaves a position at which the track has no child. *)
Lemma rewinding_shows_nothing s : rewinding s → shown s = None.
Proof.
  unfold rewinding, shown. intros ->.
  by rewrite lookup_ge_None_2.
Qed.

(** The settled cursor has period [N + 1] and rests on the trailing
    clone once per period. *)
Lemma rendered_cursor fresh first rest tr tf k :
  ∃ w0 shows,
    boot fresh (Track (first :: rest) tr tf) = Some w0 ∧
    rendered w0 k =
      Some (1 + k mod (length (first :: rest) + 1), shows).
Proof.
  destruct (boot_cons fresh first rest tr tf)
    as (s0 & Hb & Hboot & Hc & Hl & _).
  eexists _, _. split; [exact Hboot|]. unfold rendered.
  rewrite (at_time_settled s0 k) by lia. cbn [mbind option_bind].
  unfold settled. cbn [page length].
  rewrite (settle_cursor s0 Hc) by lia. rewrite Hl.
  replace (S (length rest) + 2 - 1) with (S (length rest) + 1) by lia.
  done.
Qed.

(** *** The claims about the carousel *)

(** C1.  The claim has a tick schedule the rewind when the incremented
    cursor equals N+1.  With N = 3 slides the extended track has 5
    children; the third tick moves the cursor to 4 = N+1 and schedules
    nothing, the fourth moves it to 5 = N+2, the length of the live
    collection, and only that one schedules the rewind. *)
Theorem C1_rewind_scheduled_past_trailing_clone :
  ∃ s0,
    build 10 three = Some s0 ∧
    length (slideItems s0) = 3 + 2 ∧
    let third := slideNext (after_tick s0 2) in
    let fourth := slideNext third.1 in
    currentIndex third.1 = 3 + 1 ∧ third.2 = [] ∧
    currentIndex fourth.1 = 3 + 2 ∧ fourth.2 = [(500%N, Rewind)].
Proof. eexists. split; [reflexivity|]. vm_compute. by split_and!. Qed.

(** C2.  The scenario with N = 3 slides of width 300, as the script runs
    it: build and the first three ticks are as claimed, but the third
    tick (cursor 4, offset -1200) schedules no rewind, so 500 ms later
    nothing has changed; the rewind follows the fourth tick (cursor 5,
    offset -1500) and then sets the transition to none, the cursor to 1
    and the offset to -300. *)
Theorem C2_scenario_three_slides :
  ∃ w0,
    boot 10 three = Some w0 ∧
    glance w0 0 =
      Some (1, "translateX(-300px)", "", [(3000%N, SlideNext)]) ∧
    glance w0 3000 =
      Some (2, "translateX(-600px)", animated, [(6000%N, SlideNext)]) ∧
    glance w0 6000 =
      Some (3, "translateX(-900px)", animated, [(9000%N, SlideNext)]) ∧
    glance w0 9000 =
      Some (4, "translateX(-1200px)", animated, [(12000%N, SlideNext)]) ∧
    glance w0 9500 =
      Some (4, "translateX(-1200px)", animated, [(12000%N, SlideNext)]) ∧
    glance w0 12000 =
      Some (5, "translateX(-1500px)", animated,
            [(12500%N, Rewind); (15000%N, SlideNext)]) ∧
    glance w0 12500 =
      Some (1, "translateX(-300px)", "none", [(15000%N, SlideNext)]).
Proof. eexists. split; [reflexivity|]. vm_compute. by split_and!. Qed.

(** C3, as stated, fails: with N = 2 slides the third tick leaves the
    cursor at 4, not at 1 + 3 mod 3 = 1. *)
Lemma C3_counterexample : ¬ cursor_after_tick_as_stated two 3.
Proof.
  intros H. specialize (H _ _ eq_refl eq_refl). vm_compute in H. lia.
Qed.

(** C3, amended.  For N >= 2 slides and 1 <= k <= N, from the [k]-th
    tick until 500 ms later the cursor equals 1 + (k mod (N+1)), that
    is k + 1. *)
Theorem C3_cursor_after_tick fresh (slides : track) (k : nat) (t : N) :
  2 ≤ length (children slides) →
  1 ≤ k ≤ length (children slides) →
  (3000 * N.of_nat k ≤ t < 3000 * N.of_nat k + 500)%N →
  ∃ w0 w,
    boot fresh slides = Some w0 ∧
    at_time t w0 = Some w ∧
    currentIndex (page w) = 1 + k mod (length (children slides) + 1) ∧
    currentIndex (page w) = k + 1.
Proof.
  destruct slides as [[|first rest] tr tf]; [simpl; lia|].
  cbn [children length]. intros HN Hk Ht.
  destruct (boot_cons fresh first rest tr tf)
    as (s0 & Hb & Hboot & Hc & Hl & _).
  eexists _, _. split; [exact Hboot|].
  split; [by apply at_time_ticked|]. unfold ticked. cbn [page].
  destruct k as [|k]; [lia|].
  rewrite (after_tick_cursor s0 Hc) by lia. rewrite Hl.
  rewrite !Nat.mod_small by lia. lia.
Qed.

Lemma C3_cursor_after_tick_witness :
  2 ≤ length (children two) ∧ 1 ≤ 2 ≤ length (children two) ∧
  (3000 * N.of_nat 2 ≤ 6100 < 3000 * N.of_nat 2 + 500)%N ∧
  ∃ w0 w,
    boot 10 two = Some w0 ∧
    at_time 6100 w0 = Some w ∧
    currentIndex (page w) = 1 + 2 mod (length (children two) + 1) ∧
    currentIndex (page w) = 2 + 1.
Proof.
  split; [simpl; lia|]. split; [simpl; lia|]. split; [simpl; lia|].
  apply (C3_cursor_after_tick 10 two 2 6100); simpl; lia.
Defined.

(** C4.  The claim has the settled cursor run through 1..N with period
    N.  With N = 3 the script settles on 1, 2, 3, 4, 1, 2, 3, 4, 1:
    period 4, with position 4 (the trailing clone of the first slide)
    a resting position, so the first slide is on view twice in a row. *)
Theorem C4_settled_positions_three_slides :
  ∃ w0,
    boot 10 three = Some w0 ∧
    rendered w0 <$> seq 0 9 =
    Some <$> [(1, Some "a"); (2, Some "b"); (3, Some "c"); (4, Some "a");
              (1, Some "a"); (2, Some "b"); (3, Some "c"); (4, Some "a");
              (1, Some "a")].
Proof. eexists. split; [reflexivity|]. by vm_compute. Qed.

(** C5.  For N >= 1 slides, [first :: rest], the set-up succeeds; the
    track then holds a clone of the last slide, the N slides and a clone
    of the first slide, N + 2 children in all; the cursor is 1, the
    offset is -W for W the width of the first slide, and the transition
    property is left as it was. *)
Theorem C5_build fresh first rest tr tf :
  let lastSlide := default first (last rest) in
  ∃ s,
    build fresh (Track (first :: rest) tr tf) = Some s ∧
    slideItems s =
      cloneNode (S fresh) lastSlide :: (first :: rest)
        ++ [cloneNode fresh first] ∧
    html (cloneNode (S fresh) lastSlide) = html lastSlide ∧
    html (cloneNode fresh first) = html first ∧
    last (first :: rest) = Some lastSlide ∧
    length (slideItems s) = length (first :: rest) + 2 ∧
    currentIndex s = 1 ∧
    slideWidth s = offsetWidth first ∧
    transform (slides s) = translateX (- offsetWidth first) ∧
    transition (slides s) = tr.
Proof.
  intros lastSlide. eexists. split; [apply build_cons|].
  split_and!; try done.
  - rewrite last_cons. unfold lastSlide. by destruct (last rest).
  - unfold slideItems. simpl. rewrite length_app. simpl. lia.
Qed.

(** C6.  Once the slider is set up, in every world its timers lead to
    the transform is translateX of -W times the cursor, W being the
    width measured at set-up. *)
Theorem C6_offset_follows_cursor fresh first rest tr tf w0 w :
  boot fresh (Track (first :: rest) tr tf) = Some w0 →
  reachable run w0 w →
  transform (slides (page w)) =
  translateX (- offsetWidth first * Z.of_nat (currentIndex (page w))).
Proof.
  intros Hboot Hreach.
  destruct (boot_cons fresh first rest tr tf)
    as (s0 & Hb & Hboot' & Hc & _ & HW).
  rewrite Hboot' in Hboot. injection Hboot as <-.
  enough (slideWidth (page w) = offsetWidth first ∧ follows_cursor (page w))
    as [HW' Hf] by (by rewrite Hf; unfold offset; rewrite HW').
  induction Hreach as [|w w' _ [IHW IHf] Hfire].
  - split; [done|]. rewrite build_cons in Hb. injection Hb as <-.
    unfold follows_cursor, offset. simpl. f_equal. lia.
  - destruct (fire_page _ _ Hfire) as [c ->].
    split; [by rewrite run_slideWidth|apply run_follows_cursor].
Qed.

Local Ltac fire_times n :=
  match n with
  | 0 => apply reach_start
  | S ?n' => eapply reach_fire; [fire_times n'|reflexivity]
  end.

Lemma C6_offset_follows_cursor_witness :
  ∃ w0 w,
    boot 10 three = Some w0 ∧
    reachable run w0 w ∧
    currentIndex (page w) = 5 ∧
    transform (slides (page w)) =
    translateX (- 300 * Z.of_nat (currentIndex (page w))).
Proof.
  eexists _, _. split; [reflexivity|].
  split; [fire_times 4|]. split; [reflexivity|].
  apply (C6_offset_follows_cursor 10 (slide 0 "a" 300)
           [slide 1 "b" 300; slide 2 "c" 300] "" "" _ _ eq_refl).
  fire_times 4.
Defined.

(** C7.  The claim has the rewind leave a boundary clone for the slide
    it duplicates.  With N = 3 the rewind fires at 12500 ms: just before,
    the cursor is 5 on a track of 5 children, a position with no child
    at all; just after, the transition is none and the first slide is
    on view. *)
Theorem C7_rewind_leaves_empty_position :
  ∃ w0 before after,
    boot 10 three = Some w0 ∧
    at_time 12499 w0 = Some before ∧
    at_time 12500 w0 = Some after ∧
    transition (slides (page after)) = "none" ∧
    length (slideItems (page before)) = 5 ∧
    currentIndex (page before) = 5 ∧
    transform (slides (page before)) = "translateX(-1500px)" ∧
    shown (page before) = None ∧
    currentIndex (page after) = 1 ∧
    transform (slides (page after)) = "translateX(-300px)" ∧
    shown (page after) = Some "a".
Proof.
  eexists _, _, _. split; [reflexivity|].
  split; [by vm_compute|]. split; [by vm_compute|]. by vm_compute.
Qed.

End CarouselFacts.

(** ** The banner rotator *)

Module BannerFacts.
Import Banner EventLoopFacts.

Lemma foldl_alter_seq {A} (f : A → A) (l pre : list A) :
  foldl (λ l i, alter f i l) (pre ++ l) (seq (length pre) (length l)) =
  pre ++ (f <$> l).
Proof.
  revert pre. induction l as [|x l IH]; intros pre; [done|].
  cbn [length seq foldl].
  replace (alter f (length pre) (pre ++ x :: l)) with ((pre ++ [f x]) ++ l).
  - replace (S (length pre)) with (length (pre ++ [f x]))
      by (rewrite length_app; simpl; lia).
    rewrite IH, <- app_assoc. done.
  - rewrite <- app_assoc. simpl. symmetry.
    rewrite (alter_app_r_alt f pre (x :: l) (length pre)) by lia.
    by rewrite Nat.sub_diag.
Qed.

Lemma hide_all_fmap l : hide_all l = set_display "none" <$> l.
Proof. apply (foldl_alter_seq _ l []). Qed.

(** One call of [changeBackground] on a page with at least one banner. *)
Lemma changeBackground_shows l i :
  l ≠ [] →
  let i' := if decide (length l ≤ i) then 0 else i in
  ∃ l',
    changeBackground (State l i) = (State l' i', Normal) ∧
    length l' = length l ∧ i' < length l ∧ only_shows i' l'.
Proof.
  intros Hl i'. unfold changeBackground. cbn [banners indexBanner].
  fold i'. rewrite hide_all_fmap.
  assert (i' < length l) as Hi.
  { unfold i'. destruct l; [done|]. case_decide; simpl in *; lia. }
  destruct (lookup_lt_is_Some_2 l i' Hi) as [b Hb].
  rewrite list_lookup_fmap, Hb. cbn [fmap option_fmap option_map].
  eexists. split; [done|].
  split; [by rewrite length_insert, length_fmap|]. split; [done|].
  intros j c Hj. case_decide as Hji.
  - subst j. rewrite list_lookup_insert_eq in Hj
      by (by rewrite length_fmap). by injection Hj as <-.
  - rewrite list_lookup_insert_ne, list_lookup_fmap in Hj by done.
    destruct (l !! j); [|done]. by injection Hj as <-.
Qed.

Section Rotation.
Variable bannerList : list banner.
Hypothesis Hne : bannerList ≠ [].
Local Abbreviation n := (length bannerList).
Local Abbreviation rotated := (Banner.rotated bannerList).
Local Abbreviation rotation := (Banner.rotation bannerList).

Lemma rotated_spec k :
  length (banners (rotated k)) = n ∧
  indexBanner (rotated k) = k mod n ∧
  only_shows (k mod n) (banners (rotated k)).
Proof.
  assert (0 < n) by (destruct bannerList; [done|simpl; lia]).
  induction k as [|k (IHl & IHi & _)].
  - destruct (changeBackground_shows bannerList 0 Hne)
      as (l' & Hcb & Hlen & _ & Hshow).
    cbn [Banner.rotated]. rewrite Hcb. cbn [fst banners indexBanner].
    rewrite decide_False in Hshow |- * by lia.
    by rewrite Nat.Div0.mod_0_l.
  - assert (banners (rotated k) ≠ []) as Hne'
      by (intros Hnil; rewrite Hnil in IHl; simpl in IHl; lia).
    destruct (changeBackground_shows (banners (rotated k))
                (indexBanner (rotated k) + 1) Hne')
      as (l' & Hcb & Hlen & _ & Hshow).
    cbn [Banner.rotated]. unfold nextBanner. rewrite Hcb.
    cbn [fst banners indexBanner].
    rewrite mod_succ by done.
    pose proof (Nat.mod_upper_bound k n ltac:(lia)).
    rewrite IHl, IHi in Hshow.
    replace (if decide (k mod n = n - 1) then 0 else S (k mod n))
      with (if decide (n ≤ k mod n + 1) then 0 else k mod n + 1)
      by (repeat case_decide; lia).
    rewrite IHl, IHi in *. by rewrite Hlen.
Qed.

Lemma boot_rotation : boot bannerList = Some (rotation 0).
Proof.
  unfold boot, Banner.rotation. simpl.
  destruct (changeBackground_shows bannerList 0 Hne) as (l' & -> & _).
  done.
Qed.

Lemma fire_rotation k : fire run (rotation k) = Some (rotation (S k)).
Proof.
  unfold Banner.rotation. rewrite fire_cons.
  cbn [handler due every run fst snd foldl setInterval enqueue].
  replace (3000 * N.of_nat (S k) + 3000)%N
    with (3000 * N.of_nat (S (S k)))%N by lia.
  done.
Qed.

Lemma run_until_rotation j : ∀ k fuel t,
  (3000 * N.of_nat (k + j) ≤ t < 3000 * N.of_nat (S (k + j)))%N →
  j ≤ fuel →
  run_until run fuel t (rotation k) = Some (rotation (k + j)).
Proof.
  induction j as [|j IH]; intros k fuel t Ht Hfuel.
  - rewrite Nat.add_0_r in *. apply run_until_idle.
    simpl. intros u [= <-]. simpl. lia.
  - destruct fuel as [|fuel]; [lia|].
    erewrite run_until_fire; [|done|simpl; lia].
    rewrite fire_rotation. simpl.
    replace (k + S j) with (S k + j) in * by lia.
    apply IH; [lia|lia].
Qed.

Lemma at_time_rotation t :
  at_time t (rotation 0) = Some (rotation (N.to_nat (t / 3000))).
Proof.
  unfold at_time, EventLoop.at_time.
  pose proof (N.Div0.mul_div_le t 3000).
  pose proof (N.mul_succ_div_gt t 3000 ltac:(lia)).
  apply (run_until_rotation (N.to_nat (t / 3000)) 0); simpl; lia.
Qed.

End Rotation.

(** C8.  With at least one banner: the rotator starts on banner 0; at
    any time [t] the index is the number of elapsed 3000 ms intervals
    modulo the number of banners, so each interval adds one and the
    index wraps to 0 on reaching the number of banners; and exactly the
    banner at the index has display block, all others display none. *)
Theorem C8_banner_rotation (bannerList : list banner) (t : N) :
  bannerList ≠ [] →
  let n := length bannerList in
  let k := N.to_nat (t / 3000) in
  ∃ w0 w w',
    boot bannerList = Some w0 ∧
    indexBanner (page w0) = 0 ∧ only_shows 0 (banners (page w0)) ∧
    at_time t w0 = Some w ∧
    length (banners (page w)) = n ∧
    indexBanner (page w) = k mod n ∧
    indexBanner (page w) < n ∧
    only_shows (indexBanner (page w)) (banners (page w)) ∧
    at_time (t + 3000) w0 = Some w' ∧
    indexBanner (page w') =
      if decide (indexBanner (page w) + 1 = n) then 0
      else indexBanner (page w) + 1.
Proof.
  intros Hne n k. subst n.
  assert (0 < length bannerList)
    by (destruct bannerList; [done|simpl; lia]).
  exists (rotation bannerList 0), (rotation bannerList k),
    (rotation bannerList (S k)).
  destruct (rotated_spec bannerList Hne 0) as (_ & Hi0 & Hs0).
  destruct (rotated_spec bannerList Hne k) as (Hl & Hi & Hs).
  destruct (rotated_spec bannerList Hne (S k)) as (_ & Hi' & _).
  pose proof (Nat.mod_upper_bound k (length bannerList) ltac:(lia)).
  rewrite Nat.Div0.mod_0_l in Hi0, Hs0.
  split; [by apply boot_rotation|]. cbn [page Banner.rotation].
  split; [done|]. split; [done|].
  split; [by apply at_time_rotation|].
  split; [done|]. split; [done|].
  split; [by rewrite Hi|]. split; [by rewrite Hi|].
  split.
  - rewrite at_time_rotation by done. do 2 f_equal.
    replace (t + 3000)%N with (t + 1 * 3000)%N by lia.
    rewrite N.div_add by lia. unfold k. lia.
  - rewrite Hi', Hi, mod_succ by done.
    repeat case_decide; lia.
Qed.

Lemma C8_banner_rotation_witness :
  trio ≠ [] ∧
  ∃ w0 w w',
    boot trio = Some w0 ∧
    indexBanner (page w0) = 0 ∧ only_shows 0 (banners (page w0)) ∧
    at_time 8000 w0 = Some w ∧
    length (banners (page w)) = 3 ∧
    indexBanner (page w) = 2 mod 3 ∧
    indexBanner (page w) < 3 ∧
    only_shows (indexBanner (page w)) (banners (page w)) ∧
    at_time (8000 + 3000) w0 = Some w' ∧
    indexBanner (page w') =
      if decide (indexBanner (page w) + 1 = 3) then 0
      else indexBanner (page w) + 1.
Proof.
  split; [done|]. apply (C8_banner_rotation trio 8000). done.
Defined.

End BannerFacts.

(** ** The contact form *)

Module FormFacts.
Import Form EventLoopFacts.

Lemma trimStart_nil s :
  trimStart s = [] ↔ Forall (λ c, is_white_space c = true) s.
Proof.
  induction s as [|c s IH]; simpl; [by split|].
  destruct (is_white_space c) eqn:Hc.
  - rewrite IH. split; [by constructor|by inversion 1].
  - split; [done|]. inversion 1; congruence.
Qed.

(** Trimming leaves something exactly when some code unit is not white
    space. *)
Lemma trim_truthy s :
  truthy (trim s) = true ↔ Exists (λ c, is_white_space c = false) s.
Proof.
  assert (∀ s : jsstring, truthy s = true ↔ s ≠ []) as Htruthy
    by (by intros []).
  assert (∀ s, trimStart s ≠ [] ↔
               Exists (λ c, is_white_space c = false) s) as Hstart.
  { intros s'. induction s' as [|c s' IH]; simpl.
    - split; [done|by inversion 1].
    - destruct (is_white_space c) eqn:Hc.
      + rewrite IH. split; [by right|]. inversion 1; congruence.
      + split; [by left|done]. }
  rewrite Htruthy. unfold trim, trimEnd.
  rewrite <- (Hstart s).
  destruct (trimStart s) as [|c s'] eqn:Hs.
  - by vm_compute.
  - split; [done|]. intros _ Hnil.
    apply (f_equal reverse) in Hnil. rewrite reverse_involutive in Hnil.
    cbn [reverse] in Hnil. apply trimStart_nil in Hnil.
    rewrite Forall_forall in Hnil.
    assert (is_white_space c = true) as Hc
      by (apply Hnil; rewrite elem_of_reverse; left).
    clear -Hs Hc. induction s as [|d s IH]; simpl in Hs; [done|].
    destruct (is_white_space d) eqn:Hd; [by apply IH|].
    congruence.
Qed.

Lemma thanks_not_please_fill name email : thanks name email ≠ please_fill.
Proof. by vm_compute. Qed.

(** C9.  With the three fields and the form in the document, a click on
    the submit button leaves the fields as they are and: when all three
    trimmed values are non-empty, and only then, it shows the thank-you
    alert and sets a zero-delay timer which, on firing, gives every
    control of the form its default value; otherwise it shows the
    fill-out-all-fields alert and sets no timer.  Non-empty after
    trimming means holding a code unit that is not white space; nothing
    else is asked of the e-mail value. *)
Theorem C9_formValidation (now : N) (s : state) (n e m : control) :
  document s !! "name-input" = Some (Field n) →
  document s !! "email" = Some (Field e) →
  document s !! "message" = Some (Field m) →
  document s !! "contact-form" = Some FormElement →
  let name := trim (value n) in
  let email := trim (value e) in
  let message := trim (value m) in
  let filled := name ≠ [] ∧ email ≠ [] ∧ message ≠ [] in
  let w := click now (World [] s) in
  document (page w) = document s ∧
  (filled ↔
   w = World [Timer (now + 0) ResetForm None]
         (alert (thanks name email) s)) ∧
  (filled →
   at_time now w =
   Some (World []
           (State (reset "contact-form" <$> document s)
              (alerts s ++ [thanks name email]) (uncaught s)))) ∧
  (¬ filled ↔ w = World [] (alert please_fill s)) ∧
  (filled ↔
   Exists (λ c, is_white_space c = false) (value n) ∧
   Exists (λ c, is_white_space c = false) (value e) ∧
   Exists (λ c, is_white_space c = false) (value m)).
Proof.
  intros Hn He Hm Hform name email message filled w.
  assert (∀ x : jsstring, x ≠ [] ↔ truthy x = true) as Htruthy
    by (by intros []).
  assert (w = if truthy name && truthy email && truthy message
              then World [Timer (now + 0) ResetForm None]
                     (alert (thanks name email) s)
              else World [] (alert please_fill s)) as Hw.
  { unfold w, click. rewrite dispatch_eq.
    cbn [page timers run]. unfold formValidation, trimmed_value.
    rewrite Hn, He, Hm. fold name email message.
    by destruct (truthy name && truthy email && truthy message). }
  assert (filled ↔ truthy name && truthy email && truthy message = true)
    as Hfilled.
  { unfold filled. rewrite !Htruthy, !andb_true_iff. tauto. }
  destruct (truthy name && truthy email && truthy message) eqn:Hok.
  - assert filled as Hf by by apply Hfilled.
    split_and!.
    + by rewrite Hw.
    + by rewrite Hw.
    + intros _. rewrite Hw. unfold at_time, EventLoop.at_time.
      erewrite run_until_fire; [|done|simpl; lia].
      rewrite fire_cons. cbn [handler every run fst snd foldl].
      cbn [mbind option_bind]. rewrite run_until_idle by done.
      unfold resetForm, alert. cbn [document alerts uncaught].
      by rewrite Hform.
    + split; [done|]. rewrite Hw. intros [=].
    + split; [intros _|done]. unfold filled in Hf.
      rewrite !Htruthy in Hf. by rewrite <- !trim_truthy.
  - assert (¬ filled) as Hf by (rewrite Hfilled; congruence).
    split_and!.
    + by rewrite Hw.
    + split; [done|]. rewrite Hw. intros [=].
    + done.
    + by rewrite Hw.
    + split; [done|]. rewrite <- !trim_truthy, <- !Htruthy. done.
Qed.

Lemma C9_formValidation_witness :
  document filled !! "name-input" = Some (field " Ann " "") ∧
  document filled !! "email" = Some (field "nobody" "") ∧
  document filled !! "message" = Some (field "hello" "Your message") ∧
  document filled !! "contact-form" = Some FormElement ∧
  let w := click 100 (World [] filled) in
  document (page w) = document filled ∧
  (lit "Ann" ≠ [] ∧ lit "nobody" ≠ [] ∧ lit "hello" ≠ [] ↔
   w = World [Timer (100 + 0) ResetForm None]
         (alert (thanks (lit "Ann") (lit "nobody")) filled)) ∧
  (lit "Ann" ≠ [] ∧ lit "nobody" ≠ [] ∧ lit "hello" ≠ [] →
   at_time 100 w =
   Some (World []
           (State (reset "contact-form" <$> document filled)
              [thanks (lit "Ann") (lit "nobody")] 0))) ∧
  (¬ (lit "Ann" ≠ [] ∧ lit "nobody" ≠ [] ∧ lit "hello" ≠ []) ↔
   w = World [] (alert please_fill filled)) ∧
  (lit "Ann" ≠ [] ∧ lit "nobody" ≠ [] ∧ lit "hello" ≠ [] ↔
   Exists (λ c, is_white_space c = false) (lit " Ann ") ∧
   Exists (λ c, is_white_space c = false) (lit "nobody") ∧
   Exists (λ c, is_white_space c = false) (lit "hello")).
Proof.
  split; [done|]. split; [done|]. split; [done|]. split; [done|].
  exact (C9_formValidation 100 filled
           (Control (lit " Ann ") (lit "") (Some "contact-form"))
           (Control (lit "nobody") (lit "") (Some "contact-form"))
           (Control (lit "hello") (lit "Your message") (Some "contact-form"))
           eq_refl eq_refl eq_refl eq_refl).
Defined.

End FormFacts.

(** ** The mobile navigation menu *)

Module NavigationFacts.
Import Navigation.

Lemma update_isMenuOpen ref f s s' :
  update ref f s = Some s' → isMenuOpen s' = isMenuOpen s.
Proof.
  unfold update. destruct (ref s) as [r|]; [|done]. simpl.
  destruct (store s !! r); [|done]. simpl. by intros [= <-].
Qed.

(** What every statement of a body keeps, the body keeps, also when
    it raises half-way. *)
Lemma exec_keeps (P : state → Prop) body s :
  Forall (λ stmt, ∀ s s', P s → stmt s = Some s' → P s') body →
  P s → P (exec body s).1.
Proof.
  intros Hbody. revert s.
  induction Hbody as [|stmt body Hstmt _ IH]; intros s Hs; [done|].
  simpl. destruct (stmt s) as [s'|] eqn:Hrun; [|done].
  apply IH. by eapply Hstmt.
Qed.

Lemma exec_cons stmt body s :
  exec (stmt :: body) s =
  match stmt s with Some s' => exec body s' | None => (s, Throw) end.
Proof. done. Qed.

Lemma update_keeps_flag b ref f s s' :
  isMenuOpen s = b → update ref f s = Some s' → isMenuOpen s' = b.
Proof. intros <- Hu. by eapply update_isMenuOpen. Qed.

(** Whatever happens to the page, leaving the guard behind sets the
    flag, and nothing after that changes it. *)
Lemma openMobileMenu_isMenuOpen s : isMenuOpen (openMobileMenu s).1 = true.
Proof.
  unfold openMobileMenu. destruct (isMenuOpen s) eqn:Hopen; [done|].
  rewrite exec_cons. cbn [set_isMenuOpen].
  apply (exec_keeps (λ s, isMenuOpen s = true)); [|done].
  repeat constructor; apply update_keeps_flag.
Qed.

Lemma closeMobileMenu_isMenuOpen s : isMenuOpen (closeMobileMenu s).1 = false.
Proof.
  unfold closeMobileMenu. destruct (isMenuOpen s) eqn:Hopen; [|done].
  cbn [negb]. rewrite exec_cons. cbn [set_isMenuOpen].
  apply (exec_keeps (λ s, isMenuOpen s = false)); [|done].
  repeat constructor; apply update_keeps_flag.
Qed.

Example openMobileMenu_closed_page :
  openMobileMenu closed_page = (opened_page, Normal).
Proof. by vm_compute. Qed.

Example closeMobileMenu_opened_page :
  (closeMobileMenu opened_page).2 = Normal ∧
  let s := (closeMobileMenu opened_page).1 in
  isMenuOpen s = false ∧
  classList <$> store s !! 1 = Some ["mobile-menu-toggle"] ∧
  classList <$> store s !! 2 = Some ["nav"] ∧
  (attributes <$> store s !! 1) ≫= (.!! "aria-expanded") = Some "false" ∧
  (attributes <$> store s !! 2) ≫= (.!! "aria-hidden") = Some "true" ∧
  (style <$> store s !! 3) ≫= (.!! "overflow") = Some "".
Proof. by vm_compute. Qed.

(** Without a toggle button the first write raises, after the flag has
    been set. *)
Example openMobileMenu_no_toggle :
  openMobileMenu (State false ∅ None None None) =
  (State true ∅ None None None, Throw).
Proof. done. Qed.

(** C10.  Opening an open menu and closing a closed one change nothing,
    so a second call in a row leaves the whole state (the flag, the
    classes, the styles and the attributes of every element) as the
    first call left it. *)
Theorem C10_open_close_idempotent (s : state) :
  (isMenuOpen s = true → openMobileMenu s = (s, Normal)) ∧
  (isMenuOpen s = false → closeMobileMenu s = (s, Normal)) ∧
  openMobileMenu (openMobileMenu s).1 = ((openMobileMenu s).1, Normal) ∧
  closeMobileMenu (closeMobileMenu s).1 = ((closeMobileMenu s).1, Normal).
Proof.
  split_and!.
  - intros Hopen. unfold openMobileMenu. by rewrite Hopen.
  - intros Hopen. unfold closeMobileMenu. by rewrite Hopen.
  - unfold openMobileMenu at 1. by rewrite openMobileMenu_isMenuOpen.
  - unfold closeMobileMenu at 1. by rewrite closeMobileMenu_isMenuOpen.
Qed.

End NavigationFacts.

(** ** Regular expressions and the e-mail pattern *)

Module RegexFacts.
Import Regex.

Lemma nullable_spec r : nullable r = true ↔ Matches r [].
Proof.
  induction r as [| |p|r1 IH1 r2 IH2|r1 IH1 r2 IH2|r IH]; simpl.
  - split; [done|inversion 1].
  - split; [constructor|done].
  - split; [done|inversion 1].
  - rewrite andb_true_iff, IH1, IH2. split.
    + intros [H1 H2]. by apply (MSeq _ _ [] []).
    + inversion 1 as [| |? ? s1 s2 H1 H2 [E1 E2] E3| | | |]; subst.
      apply app_eq_nil in E3 as [-> ->]. done.
  - rewrite orb_true_iff, IH1, IH2. split.
    + intros [H|H]; [by apply MAltL|by apply MAltR].
    + inversion 1; subst; [by left|by right].
  - split; [constructor|done].
Qed.

(** A non-empty match of [r*] starts with a non-empty match of [r]. *)
Lemma Matches_star_cons r c s :
  Matches (Star r) (c :: s) →
  ∃ s1 s2, s = s1 ++ s2 ∧ Matches r (c :: s1) ∧ Matches (Star r) s2.
Proof.
  intros H. remember (Star r) as r' eqn:Hr. remember (c :: s) as s' eqn:Hs.
  revert s Hs.
  induction H as [| | | | | |r0 s1 s2 H1 _ H2 IH2]; intros t Ht; try done.
  injection Hr as ->. destruct s1 as [|d s1].
  - simpl in Ht. by apply IH2.
  - simpl in Ht. injection Ht as -> <-. by exists s1, s2.
Qed.

Lemma deriv_spec c r s : Matches (deriv c r) s ↔ Matches r (c :: s).
Proof.
  revert s.
  induction r as [| |p|r1 IH1 r2 IH2|r1 IH1 r2 IH2|r IH]; intros s; simpl.
  - split; inversion 1.
  - split; inversion 1.
  - destruct (p c) eqn:Hp; split.
    + inversion 1. by constructor.
    + inversion 1. constructor.
    + inversion 1.
    + inversion 1; congruence.
  - split.
    + inversion 1 as [| | |? ? ? H1| ? ? ? H2| |]; subst.
      * inversion H1 as [| |? ? s1 s2 Ha Hb| | | |]; subst.
        apply IH1 in Ha. by apply (MSeq _ _ (c :: s1) s2).
      * destruct (nullable r1) eqn:Hn; [|inversion H2].
        apply nullable_spec in Hn. apply IH2 in H2.
        by apply (MSeq _ _ [] (c :: s)).
    + inversion 1 as [| |? ? s1 s2 Ha Hb [E1 E2] E3| | | |]; subst.
      destruct s1 as [|d s1].
      * simpl in E3. subst s2. apply MAltR.
        apply nullable_spec in Ha. rewrite Ha. by apply IH2.
      * simpl in E3. injection E3 as -> <-. apply MAltL.
        constructor; [by apply IH1|done].
  - split.
    + inversion 1; subst; [apply MAltL; by apply IH1|apply MAltR; by apply IH2].
    + inversion 1; subst; [apply MAltL; by apply IH1|apply MAltR; by apply IH2].
  - split.
    + inversion 1 as [| |? ? s1 s2 Ha Hb| | | |]; subst.
      apply IH in Ha. by apply (MStarApp _ (c :: s1) s2).
    + intros H. apply Matches_star_cons in H as (s1 & s2 & -> & Ha & Hb).
      constructor; [by apply IH|done].
Qed.

(** The matcher decides the patterns. *)
Lemma test_spec r s : test r s = true ↔ Matches r s.
Proof.
  unfold test. revert r. induction s as [|c s IH]; intros r; simpl.
  - apply nullable_spec.
  - by rewrite IH, deriv_spec.
Qed.

Lemma Matches_class p s : Matches (Class p) s ↔ ∃ c, s = [c] ∧ p c = true.
Proof.
  split; [inversion 1; eauto|]. intros (c & -> & Hc). by constructor.
Qed.

Lemma Matches_star_class p s :
  Matches (Star (Class p)) s ↔ Forall (λ c, p c = true) s.
Proof.
  split.
  - intros H. remember (Star (Class p)) as r eqn:Hr.
    induction H as [| | | | | |r0 s1 s2 H1 _ H2 IH2]; try done.
    injection Hr as ->. apply Matches_class in H1 as (c & -> & Hc).
    constructor; [done|by apply IH2].
  - induction 1 as [|c s Hc _ IH]; [constructor|].
    apply (MStarApp _ [c] s); [by constructor|done].
Qed.

Lemma Matches_plus_class p s :
  Matches (Plus (Class p)) s ↔ s ≠ [] ∧ Forall (λ c, p c = true) s.
Proof.
  unfold Plus. split.
  - inversion 1 as [| |? ? s1 s2 Ha Hb| | | |]; subst.
    apply Matches_class in Ha as (c & -> & Hc).
    apply Matches_star_class in Hb. split; [done|by constructor].
  - intros [Hne Hall]. destruct Hall as [|c s Hc Hs]; [done|].
    apply (MSeq _ _ [c] s); [by constructor|by apply Matches_star_class].
Qed.

Lemma Matches_seq r1 r2 s :
  Matches (Seq r1 r2) s ↔
  ∃ s1 s2, s = s1 ++ s2 ∧ Matches r1 s1 ∧ Matches r2 s2.
Proof.
  split; [inversion 1; eauto 6|]. intros (s1 & s2 & -> & H1 & H2).
  by constructor.
Qed.

Lemma not_space_at_spec c :
  not_space_at c = true ↔ Form.is_white_space c = false ∧ c ≠ at_sign.
Proof.
  unfold not_space_at. rewrite negb_true_iff, orb_false_iff, N.eqb_neq.
  done.
Qed.

(** The strings the e-mail pattern stands for. *)
Lemma Matches_emailRegex s :
  Matches emailRegex s ↔
  ∃ l d1 d2,
    s = l ++ at_sign :: d1 ++ full_stop :: d2 ∧
    l ≠ [] ∧ d1 ≠ [] ∧ d2 ≠ [] ∧
    Forall (λ c, not_space_at c = true) (l ++ d1 ++ d2).
Proof.
  unfold emailRegex. split.
  - intros H.
    apply Matches_seq in H as (l & s1 & -> & Hl & H).
    apply Matches_seq in H as (a & s2 & -> & Ha & H).
    apply Matches_seq in H as (d1 & s3 & -> & Hd1 & H).
    apply Matches_seq in H as (b & d2 & -> & Hb & Hd2).
    apply Matches_class in Ha as (ca & -> & Hca).
    apply Matches_class in Hb as (cb & -> & Hcb).
    apply N.eqb_eq in Hca as <-, Hcb as <-.
    apply Matches_plus_class in Hl as [? ?], Hd1 as [? ?], Hd2 as [? ?].
    exists l, d1, d2. rewrite !Forall_app. done.
  - intros (l & d1 & d2 & -> & ? & ? & ? & Hall).
    rewrite !Forall_app in Hall. destruct Hall as (? & ? & ?).
    apply MSeq; [by apply Matches_plus_class|].
    apply (MSeq _ _ [at_sign]); [by constructor|].
    apply MSeq; [by apply Matches_plus_class|].
    apply (MSeq _ _ [full_stop]); [by constructor|].
    by apply Matches_plus_class.
Qed.

(** [Utils.isValidEmail] accepts exactly the strings without white space
    that have one at sign, not in first place, followed by a part with a
    full stop that has something on either side. *)
Theorem isValidEmail_spec (email : Form.jsstring) :
  isValidEmail email = true ↔
  Forall (λ c, Form.is_white_space c = false) email ∧
  ∃ l dom,
    email = l ++ at_sign :: dom ∧ l ≠ [] ∧
    (at_sign ∉ l) ∧ (at_sign ∉ dom) ∧
    ∃ d1 d2, dom = d1 ++ full_stop :: d2 ∧ d1 ≠ [] ∧ d2 ≠ [].
Proof.
  unfold isValidEmail. rewrite test_spec, Matches_emailRegex.
  assert (∀ s : list N,
            Forall (λ c, not_space_at c = true) s ↔
            Forall (λ c, Form.is_white_space c = false) s ∧ at_sign ∉ s)
    as Hclass.
  { intros s. rewrite !Forall_forall. split.
    - intros H. split; [intros c Hc; by apply not_space_at_spec, H|].
      intros Hin. by apply H, not_space_at_spec in Hin as [_ ?].
    - intros [H1 H2] c Hc. apply not_space_at_spec.
      split; [by apply H1|]. by intros ->. }
  split.
  - intros (l & d1 & d2 & -> & Hl & Hd1 & Hd2 & Hall).
    apply Hclass in Hall as [Hws Hat].
    rewrite !Forall_app in Hws. destruct Hws as (? & ? & ?).
    rewrite !not_elem_of_app in Hat. destruct Hat as (? & ? & ?).
    split.
    + rewrite Forall_app, Forall_cons, Forall_app, Forall_cons.
      split_and!; try done.
    + exists l, (d1 ++ full_stop :: d2). split_and!; try done.
      * rewrite not_elem_of_app, not_elem_of_cons. done.
      * by exists d1, d2.
  - intros (Hws & l & dom & -> & Hl & Hatl & Hatd & d1 & d2 & -> & ? & ?).
    exists l, d1, d2. split_and!; try done.
    rewrite Forall_app, Forall_cons, Forall_app, Forall_cons in Hws.
    destruct Hws as (? & _ & ? & _ & ?).
    rewrite not_elem_of_app, not_elem_of_cons in Hatd.
    destruct Hatd as (? & _ & ?).
    apply Hclass. rewrite !Forall_app, !not_elem_of_app. done.
Qed.

End RegexFacts.

(** ** Debounced and throttled functions *)

Module DebounceFacts.
Import Closures Debounce.
Section Facts.
Context {A : Type} (wait : N).
Implicit Types (e : N * A) (events : list (N * A)) (cs : list (N * A)).

(** The closure right after a call at time [p] with [a]: one timer, the
    one [timeout] names. *)
Definition armed (i : positive) (p : N) (a : A) cs : host closure A :=
  Host [Timer i (p + wait) a] (Pos.succ i) (Closure (Some i) cs).

Lemma handle_init immediate e :
  handle wait immediate init e =
  armed 1 e.1 e.2 (if immediate then [e] else []).
Proof. destruct e as [t a]. by destruct immediate. Qed.

Lemma handle_armed immediate i p a cs e :
  handle wait immediate (armed i p a cs) e =
  armed (Pos.succ i) e.1 e.2
    (cs ++ if bool_decide (p + wait ≤ e.1)%N
           then (if immediate then [e] else [((p + wait)%N, a)])
           else []).
Proof.
  destruct e as [t b]. unfold handle, armed, advance. cbn [fst snd].
  cbn [timers vars fire_due due memo].
  case_bool_decide as Hdue.
  - rewrite decide_True by done. cbn [fire_due].
    unfold executedFunction, later, func. destruct immediate; done.
  - rewrite decide_False by done.
    unfold executedFunction, clearTimeout, setTimeout.
    cbn [vars timeout timers next_id calls filter list_filter id].
    rewrite decide_False by (by intros []).
    rewrite andb_false_r, app_nil_r. done.
Qed.

Lemma run_armed immediate events : ∀ i p a cs,
  ∃ i' p' a' cs',
    foldl (handle wait immediate) (armed i p a cs) events =
    armed i' p' a' cs' ∧
    last ((p, a) :: events) = Some (p', a').
Proof.
  induction events as [|e events IH]; intros i p a cs.
  - by exists i, p, a, cs.
  - cbn [foldl]. rewrite handle_armed.
    edestruct IH as (i' & p' & a' & cs' & -> & Hlast).
    exists i', p', a', cs'. split; [done|].
    rewrite <- Hlast. by destruct e.
Qed.

Lemma run_leading events : ∀ i p a cs,
  calls (vars (foldl (handle wait true) (armed i p a cs) events)) =
  cs ++ leading wait (Some p) events.
Proof.
  induction events as [|e events IH]; intros i p a cs.
  - simpl. by rewrite app_nil_r.
  - cbn [foldl]. rewrite handle_armed, IH, <- app_assoc. done.
Qed.

Lemma advance_armed immediate i p a cs T :
  calls (vars (advance (later immediate) T (armed i p a cs))) =
  cs ++ if bool_decide (p + wait ≤ T)%N && negb immediate
        then [((p + wait)%N, a)] else [].
Proof.
  unfold advance, armed. cbn [timers vars fire_due due memo].
  case_bool_decide.
  - rewrite decide_True by done. cbn [fire_due vars].
    unfold later, func. destruct immediate; simpl; by rewrite ?app_nil_r.
  - rewrite decide_False by done. simpl. by rewrite app_nil_r.
Qed.

Lemma run_trailing events : ∀ i p a cs T,
  calls (vars (advance (later false) T
                 (foldl (handle wait false) (armed i p a cs) events))) =
  cs ++ trailing wait T ((p, a) :: events).
Proof.
  induction events as [|e events IH]; intros i p a cs T.
  - cbn [foldl]. rewrite advance_armed. simpl.
    by rewrite andb_true_r, app_nil_r.
  - cbn [foldl]. rewrite handle_armed, IH, <- app_assoc.
    destruct e as [t b]. done.
Qed.

Lemma run_cons_leading e events :
  calls (vars (run wait true (e :: events))) =
  e :: leading wait (Some e.1) events.
Proof. unfold run. cbn [foldl]. by rewrite handle_init, run_leading. Qed.

Lemma run_cons_trailing e events T :
  calls (vars (advance (later false) T (run wait false (e :: events)))) =
  trailing wait T ((e.1, e.2) :: events).
Proof. unfold run. cbn [foldl]. by rewrite handle_init, run_trailing. Qed.



(** However the calls come, the closure never has more than one timer
    alive: after a call, exactly the timer of that call, which is the
    one [timeout] names. *)
Theorem debounce_one_timer immediate events e :
  ∃ i,
    timers (run wait immediate (events ++ [e])) =
      [Timer i (e.1 + wait) e.2] ∧
    timeout (vars (run wait immediate (events ++ [e]))) = Some i.
Proof.
  unfold run. destruct events as [|e0 events].
  - simpl. rewrite handle_init. by exists 1%positive.
  - cbn [app foldl]. rewrite handle_init.
    edestruct (run_armed immediate (events ++ [e]))
      as (i' & p' & a' & cs' & -> & Hlast).
    rewrite app_comm_cons, last_snoc in Hlast. injection Hlast as ->.
    by exists i'.
Qed.

Lemma leading_burst p events :
  burst wait p events → leading wait (Some p) events = [].
Proof.
  revert p. induction events as [|e events IH]; intros p; [done|].
  intros [Hp Hburst]. cbn [leading].
  rewrite bool_decide_false by lia. by apply IH.
Qed.

Lemma trailing_burst T p a events :
  burst wait p events →
  trailing wait T ((p, a) :: events) =
  trailing wait T (default [(p, a)] (last events ≫= λ e, Some [e])).
Proof.
  revert p a. induction events as [|[t b] events IH]; intros p a; [done|].
  intros [Hp Hburst]. simpl in Hp, Hburst.
  change (trailing wait T ((p, a) :: (t, b) :: events))
    with ((if bool_decide (p + wait ≤ t)%N
           then [((p + wait)%N, a)] else [])
          ++ trailing wait T ((t, b) :: events)).
  rewrite bool_decide_false by lia. cbn [app]. rewrite (IH t b) by done.
  destruct events as [|e' events]; [done|].
  destruct (proj2 (last_is_Some (e' :: events))) as [x Hx]; [done|].
  by rewrite last_cons_cons, Hx.
Qed.

(** In a burst of calls, each less than [wait] ms after the one before,
    a debounced function with [immediate] set runs [func] once, at the
    first call. *)
Theorem debounce_burst_leading e events :
  burst wait e.1 events →
  calls (vars (run wait true (e :: events))) = [e].
Proof.
  intros Hburst. by rewrite run_cons_leading, leading_burst.
Qed.

(** In such a burst, a debounced function without [immediate] runs
    [func] once, [wait] ms after the last call and with its arguments,
    and not before. *)
Theorem debounce_burst_trailing e events e' (T : N) :
  burst wait e.1 events →
  last (e :: events) = Some e' →
  calls (vars (advance (later false) T (run wait false (e :: events)))) =
  if bool_decide (e'.1 + wait ≤ T)%N then [((e'.1 + wait)%N, e'.2)] else [].
Proof.
  intros Hburst Hlast. rewrite run_cons_trailing.
  destruct e as [t a]. cbn [fst snd] in *. rewrite trailing_burst by done.
  destruct events as [|e1 events].
  - injection Hlast as <-. simpl. by rewrite app_nil_r.
  - rewrite last_cons_cons in Hlast. rewrite Hlast. simpl.
    by rewrite app_nil_r.
Qed.

End Facts.
Lemma debounce_burst_leading_witness :
  burst 250 0 [(100%N, "b"); (300%N, "c")] ∧
  calls (vars (run 250 true [(0%N, "a"); (100%N, "b"); (300%N, "c")])) =
  [(0%N, "a")].
Proof.
  split; [simpl; lia|].
  apply (debounce_burst_leading 250 (0%N, "a")). simpl. lia.
Defined.

Lemma debounce_burst_trailing_witness :
  burst 250 0 [(100%N, "b"); (300%N, "c")] ∧
  last [(0%N, "a"); (100%N, "b"); (300%N, "c")] = Some (300%N, "c") ∧
  calls (vars (advance (later false) 1000
                 (run 250 false [(0%N, "a"); (100%N, "b"); (300%N, "c")]))) =
  if bool_decide (300 + 250 ≤ 1000)%N then [((300 + 250)%N, "c")] else [].
Proof.
  split; [simpl; lia|]. split; [done|].
  apply (debounce_burst_trailing 250 (0%N, "a") _ (300%N, "c"));
    [simpl; lia|done].
Defined.

End DebounceFacts.

Module ThrottleFacts.
Import Closures Throttle.
Section Facts.
Context {A : Type} (limit : N).
Implicit Types (e : N * A) (events : list (N * A)) (cs : list (N * A)).

(** The closure while it holds calls back: one timer, due [limit] after
    the call at [p] that was let through. *)
Definition held (i : positive) (p : N) cs : host closure unit :=
  Host [Timer i (p + limit) ()] (Pos.succ i) (Closure true cs).

Lemma throttled_init e : handle limit init e = held 1 e.1 [e].
Proof. by destruct e. Qed.

Lemma throttled_held i p cs e :
  handle limit (held i p cs) e =
  if bool_decide (p + limit ≤ e.1)%N
  then held (Pos.succ i) e.1 (cs ++ [e]) else held i p cs.
Proof.
  destruct e as [t a]. unfold handle, held, advance. cbn [fst snd].
  cbn [timers vars fire_due due memo].
  case_bool_decide.
  - by rewrite decide_True by done.
  - by rewrite decide_False by done.
Qed.

Lemma run_held events : ∀ i p cs,
  ∃ i' p',
    foldl (handle limit) (held i p cs) events =
    held i' p' (cs ++ spaced limit (Some p) events).
Proof.
  induction events as [|e events IH]; intros i p cs.
  - exists i, p. simpl. by rewrite app_nil_r.
  - cbn [foldl spaced]. rewrite throttled_held. case_bool_decide.
    + destruct (IH (Pos.succ i) e.1 (cs ++ [e])) as (i' & p' & ->).
      exists i', p'. by rewrite <- app_assoc.
    + apply IH.
Qed.

Lemma run_spaced events :
  vars (run limit events) =
  Closure (bool_decide (events ≠ [])) (spaced limit None events).
Proof.
  unfold run. destruct events as [|e events]; [done|].
  cbn [foldl spaced]. rewrite throttled_init.
  by destruct (run_held events 1%positive e.1 [e]) as (i' & p' & ->).
Qed.


Lemma spaced_gap events : ∀ last i x y,
  spaced limit last events !! i = Some x →
  spaced limit last events !! S i = Some y →
  (x.1 + limit ≤ y.1)%N.
Proof.
  assert (∀ events p y, spaced limit (Some p) events !! 0 = Some y →
                        (p + limit ≤ y.1)%N) as Hhead.
  { intros es. induction es as [|e es IH]; intros p y; [done|].
    cbn [spaced]. case_bool_decide; [|apply IH].
    simpl. by intros [= <-]. }
  induction events as [|e events IH]; intros last i x y; [done|].
  cbn [spaced].
  destruct (match last with
            | Some p => bool_decide (p + limit ≤ e.1)%N
            | None => true
            end); [|apply IH].
  destruct i as [|i]; simpl.
  - intros [= <-]. apply Hhead.
  - apply IH.
Qed.

(** It never lets two calls through less than [limit] ms apart. *)
Theorem throttle_gap events i x y :
  calls (vars (run limit events)) !! i = Some x →
  calls (vars (run limit events)) !! S i = Some y →
  (x.1 + limit ≤ y.1)%N.
Proof. rewrite run_spaced. apply spaced_gap. Qed.

End Facts.

Lemma throttle_gap_witness :
  calls (vars (run 100 [(0%N, "a"); (40%N, "b"); (120%N, "c")])) !! 0 =
    Some (0%N, "a") ∧
  calls (vars (run 100 [(0%N, "a"); (40%N, "b"); (120%N, "c")])) !! 1 =
    Some (120%N, "c") ∧
  (0 + 100 ≤ 120)%N.
Proof.
  split; [done|]. split; [done|].
  by apply (throttle_gap 100 [(0%N, "a"); (40%N, "b"); (120%N, "c")] 0
              (0%N, "a") (120%N, "c")).
Defined.

End ThrottleFacts.

(** ** The listeners of the navigation menu *)

Module HandlersFacts.
Import Navigation Handlers NavigationFacts.

(** *** One write through a reference *)

Lemma update_inv p f s s' :
  update (ref p) f s = Some s' →
  ∃ r e,
    ref p s = Some r ∧ store s !! r = Some e ∧
    s' = State (isMenuOpen s) (<[r := f e]> (store s))
           (mobileToggle s) (nav s) (body s).
Proof.
  unfold update. destruct (ref p s) as [r|] eqn:Hr; [|done]. simpl.
  destruct (store s !! r) as [e|] eqn:He; [|done]. simpl.
  intros [= <-]. by exists r, e.
Qed.

Lemma update_ref p f s s' q :
  update (ref p) f s = Some s' → ref q s' = ref q s.
Proof.
  intros Hu. apply update_inv in Hu as (r & e & _ & _ & ->).
  by destruct q.
Qed.

Lemma update_at_part p f s s' q :
  update (ref p) f s = Some s' →
  at_part q s' =
  if decide (ref q s = ref p s) then f <$> at_part q s else at_part q s.
Proof.
  intros Hu. unfold at_part. rewrite (update_ref _ _ _ _ _ Hu).
  apply update_inv in Hu as (r & e & Hr & He & ->). cbn [store].
  rewrite Hr. destruct (ref q s) as [r'|]; simpl; [|done].
  case_decide as Heq.
  - injection Heq as ->. by rewrite lookup_insert_eq, He.
  - rewrite lookup_insert_ne; [done|congruence].
Qed.

Lemma update_holds_new p f s s' (P : element → Prop) :
  (∀ e, P (f e)) → update (ref p) f s = Some s' → holds p P s'.
Proof.
  intros HP Hu. unfold holds. rewrite (update_at_part _ _ _ _ p Hu).
  rewrite decide_True by done.
  apply update_inv in Hu as (r & e & Hr & He & _).
  exists (f e). unfold at_part. rewrite Hr. simpl. by rewrite He.
Qed.

Lemma update_holds_keep p f s s' q (P : element → Prop) :
  (∀ e, P e → P (f e)) →
  update (ref p) f s = Some s' → holds q P s → holds q P s'.
Proof.
  intros HP Hu (e & He & HPe). unfold holds.
  rewrite (update_at_part _ _ _ _ q Hu), He. case_decide; simpl; eauto.
Qed.

Lemma update_present p f s :
  present s →
  ∃ s', update (ref p) f s = Some s' ∧ present s' ∧
        isMenuOpen s' = isMenuOpen s.
Proof.
  intros Hs. destruct (Hs p) as [e He]. unfold at_part in He.
  destruct (ref p s) as [r|] eqn:Hr; [|done]. simpl in He.
  eexists. split; [unfold update; by rewrite Hr; simpl; rewrite He|].
  split; [|done]. intros q.
  assert (update (ref p) f s =
          Some (State (isMenuOpen s) (<[r:=f e]> (store s))
                  (mobileToggle s) (nav s) (body s))) as Hu
    by (unfold update; by rewrite Hr; simpl; rewrite He).
  rewrite (update_at_part _ _ _ _ q Hu).
  destruct (Hs q) as [e' ->]. by case_decide.
Qed.

Lemma holds_and p (P Q : element → Prop) s :
  holds p P s → holds p Q s → holds p (λ e, P e ∧ Q e) s.
Proof.
  intros (e & He & HP) (e' & He' & HQ).
  assert (e' = e) as -> by congruence. by exists e.
Qed.

Lemma holds_present s :
  (∀ p, ∃ P, holds p P s) → present s.
Proof. intros H p. destruct (H p) as (P & e & He & _). by exists e. Qed.

Lemma present_flag b s :
  present s →
  present (State b (store s) (mobileToggle s) (nav s) (body s)).
Proof. intros Hs p. destruct (Hs p) as [e He]. exists e. by destruct p. Qed.

(** *** What the writes do to an element *)

Lemma classList_add_elem tok tok' e :
  tok ∈ classList (classList_add tok' e) ↔ tok ∈ classList e ∨ tok = tok'.
Proof.
  unfold classList_add. cbn [classList]. case_decide as Hin.
  - split; [by left|]. intros [?| ->]; done.
  - rewrite elem_of_app, list_elem_of_singleton. done.
Qed.

Lemma classList_remove_elem tok tok' e :
  tok ∈ classList (classList_remove tok' e) ↔
  tok ∈ classList e ∧ tok ≠ tok'.
Proof.
  unfold classList_remove. cbn [classList]. rewrite list_elem_of_filter.
  tauto.
Qed.

(** *** Opening and closing on a page that has the three elements *)

Lemma openMobileMenu_body s :
  openMobileMenu s =
  if isMenuOpen s then (s, Normal)
  else exec [ set_isMenuOpen true;
              update (ref Toggle) (classList_add "active");
              update (ref Nav) (classList_add "mobile-menu-open");
              update (ref Body) (set_style "overflow" "hidden");
              update (ref Toggle) (setAttribute "aria-expanded" "true");
              update (ref Nav) (setAttribute "aria-hidden" "false") ] s.
Proof. done. Qed.

Lemma closeMobileMenu_body s :
  closeMobileMenu s =
  if negb (isMenuOpen s) then (s, Normal)
  else exec [ set_isMenuOpen false;
              update (ref Toggle) (classList_remove "active");
              update (ref Nav) (classList_remove "mobile-menu-open");
              update (ref Body) (set_style "overflow" "");
              update (ref Toggle) (setAttribute "aria-expanded" "false");
              update (ref Nav) (setAttribute "aria-hidden" "true") ] s.
Proof. done. Qed.

Local Ltac write p Hpres s' E P F :=
  match goal with
  | |- context [exec (update (ref p) ?f :: _) ?s0] =>
      destruct (update_present p f s0 Hpres) as (s' & E & P & F);
      rewrite exec_cons, E
  end.

Lemma openMobileMenu_run s :
  present s → isMenuOpen s = false →
  ∃ s', openMobileMenu s = (s', Normal) ∧ shows_open s'.
Proof.
  intros Hs Hclosed. rewrite openMobileMenu_body, Hclosed, exec_cons.
  cbn [set_isMenuOpen]. apply (present_flag true) in Hs.
  write Toggle Hs s1 E1 P1 F1. write Nav P1 s2 E2 P2 F2.
  write Body P2 s3 E3 P3 F3. write Toggle P3 s4 E4 P4 F4.
  write Nav P4 s5 E5 P5 F5.
  eexists. split; [done|].
  split; [by rewrite F5, F4, F3, F2, F1|]. split_and!.
  - apply holds_and.
    + eapply update_holds_keep; [|exact E5|]; [done|].
      eapply update_holds_keep; [|exact E4|]; [done|].
      eapply update_holds_keep; [|exact E3|]; [done|].
      eapply update_holds_keep; [|exact E2|].
      { intros e He. apply classList_add_elem. by left. }
      eapply update_holds_new; [|exact E1].
      intros e. apply classList_add_elem. by right.
    + eapply update_holds_keep; [|exact E5|].
      { intros e He. cbn. by rewrite lookup_insert_ne. }
      eapply update_holds_new; [|exact E4].
      intros e. cbn. by rewrite lookup_insert_eq.
  - apply holds_and.
    + eapply update_holds_keep; [|exact E5|]; [done|].
      eapply update_holds_keep; [|exact E4|]; [done|].
      eapply update_holds_keep; [|exact E3|]; [done|].
      eapply update_holds_new; [|exact E2].
      intros e. apply classList_add_elem. by right.
    + eapply update_holds_new; [|exact E5].
      intros e. cbn. by rewrite lookup_insert_eq.
  - eapply update_holds_keep; [|exact E5|]; [done|].
    eapply update_holds_keep; [|exact E4|]; [done|].
    eapply update_holds_new; [|exact E3].
    intros e. cbn. by rewrite lookup_insert_eq.
Qed.

Lemma closeMobileMenu_run s :
  present s → isMenuOpen s = true →
  ∃ s',
    closeMobileMenu s = (s', Normal) ∧ shows_closed s' ∧
    holds Toggle (λ e, attributes e !! "aria-expanded" = Some "false") s' ∧
    holds Nav (λ e, attributes e !! "aria-hidden" = Some "true") s' ∧
    holds Body (λ e, style e !! "overflow" = Some "") s'.
Proof.
  intros Hs Hopen. rewrite closeMobileMenu_body, Hopen, exec_cons.
  cbn [set_isMenuOpen negb]. apply (present_flag false) in Hs.
  write Toggle Hs s1 E1 P1 F1. write Nav P1 s2 E2 P2 F2.
  write Body P2 s3 E3 P3 F3. write Toggle P3 s4 E4 P4 F4.
  write Nav P4 s5 E5 P5 F5.
  eexists. split; [done|]. split_and!.
  - split; [by rewrite F5, F4, F3, F2, F1|]. split_and!; [| |done].
    + eapply update_holds_keep; [|exact E5|]; [done|].
      eapply update_holds_keep; [|exact E4|]; [done|].
      eapply update_holds_keep; [|exact E3|]; [done|].
      eapply update_holds_keep; [|exact E2|].
      { intros e He. rewrite classList_remove_elem. tauto. }
      eapply update_holds_new; [|exact E1].
      intros e. rewrite classList_remove_elem. tauto.
    + eapply update_holds_keep; [|exact E5|]; [done|].
      eapply update_holds_keep; [|exact E4|]; [done|].
      eapply update_holds_keep; [|exact E3|]; [done|].
      eapply update_holds_new; [|exact E2].
      intros e. rewrite classList_remove_elem. tauto.
  - eapply update_holds_keep; [|exact E5|].
    { intros e He. cbn. by rewrite lookup_insert_ne. }
    eapply update_holds_new; [|exact E4].
    intros e. cbn. by rewrite lookup_insert_eq.
  - eapply update_holds_new; [|exact E5].
    intros e. cbn. by rewrite lookup_insert_eq.
  - eapply update_holds_keep; [|exact E5|]; [done|].
    eapply update_holds_keep; [|exact E4|]; [done|].
    eapply update_holds_new; [|exact E3].
    intros e. cbn. by rewrite lookup_insert_eq.
Qed.

(** On a page that has the toggle button, the menu and the body,
    whether or not two of them are one element, opening a closed menu
    completes and leaves the menu looking open: the flag set, both
    classes in place, the body not scrolling and the two aria
    attributes telling so; no write undoes an earlier one. *)
Theorem openMobileMenu_shows_open s :
  present s → isMenuOpen s = false →
  ∃ s', openMobileMenu s = (s', Normal) ∧ shows_open s'.
Proof. apply openMobileMenu_run. Qed.

(** On such a page, closing an open menu completes and leaves the menu
    looking closed: the flag cleared, both classes gone, the overflow
    style of the body emptied and the two aria attributes telling so. *)
Theorem closeMobileMenu_shows_closed s :
  present s → isMenuOpen s = true →
  ∃ s',
    closeMobileMenu s = (s', Normal) ∧ shows_closed s' ∧
    holds Toggle (λ e, attributes e !! "aria-expanded" = Some "false") s' ∧
    holds Nav (λ e, attributes e !! "aria-hidden" = Some "true") s' ∧
    holds Body (λ e, style e !! "overflow" = Some "") s'.
Proof. apply closeMobileMenu_run. Qed.

Lemma present_closed_page : present closed_page.
Proof. intros []; by eexists. Qed.

Lemma openMobileMenu_shows_open_witness :
  present closed_page ∧ isMenuOpen closed_page = false ∧
  ∃ s', openMobileMenu closed_page = (s', Normal) ∧ shows_open s'.
Proof.
  split; [apply present_closed_page|]. split; [done|].
  apply (openMobileMenu_shows_open closed_page);
    [apply present_closed_page|done].
Defined.

Lemma present_opened_page : present opened_page.
Proof. intros []; by eexists. Qed.

Lemma closeMobileMenu_shows_closed_witness :
  present opened_page ∧ isMenuOpen opened_page = true ∧
  ∃ s',
    closeMobileMenu opened_page = (s', Normal) ∧ shows_closed s' ∧
    holds Toggle (λ e, attributes e !! "aria-expanded" = Some "false") s' ∧
    holds Nav (λ e, attributes e !! "aria-hidden" = Some "true") s' ∧
    holds Body (λ e, style e !! "overflow" = Some "") s'.
Proof.
  split; [apply present_opened_page|]. split; [done|].
  apply (closeMobileMenu_shows_closed opened_page);
    [apply present_opened_page|done].
Defined.

(** *** The listeners *)

Lemma shows_open_present s : shows_open s → present s.
Proof.
  intros (_ & (e1 & H1 & _) & (e2 & H2 & _) & (e3 & H3 & _)) [];
    by eexists.
Qed.

Lemma in_sync_present s : in_sync s → present s.
Proof. intros [?|(_ & _ & _ & ?)]; [by apply shows_open_present|done]. Qed.

(** A listener that closes the menu when some condition holds and the
    menu is open. *)
Lemma close_if_in_sync (c : bool) s :
  in_sync s →
  ∃ s',
    (if c && isMenuOpen s then closeMobileMenu s else (s, Normal)) =
    (s', Normal) ∧ in_sync s'.
Proof.
  intros Hs. destruct (c && isMenuOpen s) eqn:Hc; [|by exists s].
  apply andb_true_iff in Hc as [_ Hopen].
  destruct (closeMobileMenu_run s) as (s' & -> & ? & _);
    [by apply in_sync_present|done|].
  exists s'. split; [done|by right].
Qed.

Section Tree.
Variable contains : nat → nat → bool.

Lemma listener_in_sync ev s :
  in_sync s →
  ∃ s', listener contains ev s = (s', Normal) ∧ in_sync s'.
Proof.
  intros Hs. pose proof (in_sync_present s Hs) as Hp.
  destruct ev as [| |target|key|v|startY endY]; cbn [listener].
  - unfold toggleMobileMenu. destruct (isMenuOpen s) eqn:Hopen.
    + destruct (closeMobileMenu_run s) as (s' & -> & ? & _);
        [done..|]. exists s'. split; [done|by right].
    + destruct (openMobileMenu_run s) as (s' & -> & ?);
        [done..|]. exists s'. split; [done|by left].
  - destruct (close_if_in_sync true s Hs) as (s' & Hs' & ?).
    exists s'. split; [|done]. rewrite <- Hs'. simpl.
    destruct (isMenuOpen s) eqn:Hopen; [done|].
    unfold closeMobileMenu. by rewrite Hopen.
  - unfold handleOutsideClick.
    destruct (isMenuOpen s) eqn:Hopen; [|by exists s].
    destruct (Hp Nav) as [en Hn], (Hp Toggle) as [et Ht].
    unfold at_part in Hn, Ht. cbn [ref] in Hn, Ht.
    destruct (nav s) as [n|]; [|done].
    destruct (mobileToggle s) as [t|]; [|done]. cbn.
    destruct (close_if_in_sync
                (negb (contains n target) && negb (contains t target))
                s Hs) as (s' & Hs' & ?).
    exists s'. split; [|done]. rewrite <- Hs', Hopen.
    by rewrite andb_true_r.
  - apply close_if_in_sync, Hs.
  - apply close_if_in_sync, Hs.
  - unfold handleSwipe.
    destruct (close_if_in_sync
                (bool_decide (50 < Z.abs (startY - endY))%Z
                 && bool_decide (0 < startY - endY)%Z) s Hs)
      as (s' & Hs' & ?).
    exists s'. split; [|done]. rewrite <- Hs'.
    destruct (bool_decide (50 < Z.abs (startY - endY))%Z
              && bool_decide (0 < startY - endY)%Z); [|done].
    by destruct (isMenuOpen s).
Qed.

(** On a page where the menu is in step with the flag (open with its
    classes and attributes, or closed without the classes), it stays so
    whatever the listeners are called with: toggle and link clicks,
    clicks anywhere, keys, resizes and swipes; and none of them
    raises. *)
Theorem listeners_in_sync evs ev s :
  in_sync s →
  in_sync (listeners contains evs s) ∧
  (listener contains ev (listeners contains evs s)).2 = Normal.
Proof.
  intros Hs.
  assert (in_sync (listeners contains evs s)) as Hs'.
  { revert s Hs. induction evs as [|ev' evs IH]; intros s Hs; [done|].
    cbn [listeners foldl]. apply IH.
    by destruct (listener_in_sync ev' s Hs) as (s' & -> & ?). }
  split; [done|].
  by destruct (listener_in_sync ev _ Hs') as (s' & -> & ?).
Qed.

Lemma exec_mobileToggle body s :
  Forall (λ stmt, ∀ s s', stmt s = Some s' →
                           mobileToggle s' = mobileToggle s) body →
  mobileToggle (exec body s).1 = mobileToggle s.
Proof.
  intros Hbody.
  apply (exec_keeps (λ s', mobileToggle s' = mobileToggle s)); [|done].
  eapply Forall_impl; [exact Hbody|]. simpl.
  intros stmt Hstmt s1 s2 <- Hrun. by apply Hstmt.
Qed.

Lemma toggleMobileMenu_mobileToggle s :
  mobileToggle (toggleMobileMenu s).1 = mobileToggle s.
Proof.
  unfold toggleMobileMenu.
  rewrite openMobileMenu_body, closeMobileMenu_body.
  destruct (isMenuOpen s); cbn [negb];
    apply exec_mobileToggle; repeat constructor;
    try (intros s1 s2 Hu; exact (update_ref _ _ _ _ Toggle Hu));
    by intros s1 s2 [= <-].
Qed.

(** A click on the toggle button, or on anything inside it, also
    reaches the click listener of the document.  That listener never
    undoes what the toggle listener did: after both, the page is as
    [toggleMobileMenu] left it. *)
Theorem toggle_click_not_undone s t target :
  mobileToggle s = Some t → contains t target = true →
  listeners contains [ToggleClick; DocumentClick target] s =
  (toggleMobileMenu s).1.
Proof.
  intros Ht Hin. cbn [listeners foldl listener].
  pose proof (toggleMobileMenu_mobileToggle s) as Href.
  destruct (toggleMobileMenu s) as [s1 c]. cbn [fst] in *.
  unfold handleOutsideClick. destruct (negb (isMenuOpen s1)); [done|].
  rewrite Href, Ht. destruct (nav s1); cbn; [|done].
  by rewrite Hin, andb_false_r.
Qed.

End Tree.

Lemma in_sync_closed_page : in_sync closed_page.
Proof.
  right. split; [done|]. split_and!.
  - eexists. split; [done|]. simpl. by rewrite list_elem_of_singleton.
  - eexists. split; [done|]. simpl. by rewrite list_elem_of_singleton.
  - apply present_closed_page.
Qed.

Lemma listeners_in_sync_witness :
  in_sync closed_page ∧
  in_sync (listeners (λ a b, bool_decide (a = b))
             [ToggleClick; DocumentClick 1; KeyDown "Escape"] closed_page) ∧
  (listener (λ a b, bool_decide (a = b)) ToggleClick
     (listeners (λ a b, bool_decide (a = b))
        [ToggleClick; DocumentClick 1; KeyDown "Escape"] closed_page)).2 =
  Normal.
Proof.
  split; [exact in_sync_closed_page|].
  exact (listeners_in_sync (λ a b, bool_decide (a = b))
           [ToggleClick; DocumentClick 1; KeyDown "Escape"] ToggleClick
           closed_page in_sync_closed_page).
Defined.

Lemma toggle_click_not_undone_witness :
  mobileToggle closed_page = Some 1 ∧
  bool_decide (1 = 1) = true ∧
  listeners (λ a b, bool_decide (a = b))
    [ToggleClick; DocumentClick 1] closed_page =
  (toggleMobileMenu closed_page).1.
Proof.
  split; [done|]. split; [done|].
  by apply (toggle_click_not_undone (λ a b, bool_decide (a = b))
              closed_page 1 1).
Defined.

End HandlersFacts.

(** ** More on the carousel and the banner rotator *)

Module TimelineFacts.
Import Carousel CarouselFacts.


(** The slider at any time [t], for any number N >= 1 of slides: with
    [k] the number of ticks so far, the track still has its N + 2
    children, and the cursor is 1 + k mod (N+1), except in the 500 ms
    after a tick whose number is a positive multiple of N+1, when it is
    N + 2.  Nothing is on view exactly when the cursor is N + 2. *)
Theorem carousel_at_time fresh first rest tr tf (t : N) :
  let n := length (first :: rest) in
  let k := N.to_nat (t / 3000) in
  ∃ w0 w,
    boot fresh (Track (first :: rest) tr tf) = Some w0 ∧
    at_time t w0 = Some w ∧
    slideItems (page w) = slideItems (page w0) ∧
    length (slideItems (page w)) = n + 2 ∧
    currentIndex (page w) =
      (if decide (0 < k ∧ k mod (n + 1) = 0 ∧
                  (t < 3000 * N.of_nat k + 500)%N)
       then n + 2 else 1 + k mod (n + 1)) ∧
    (shown (page w) = None ↔ currentIndex (page w) = n + 2).
Proof.
  intros n k. subst n. cbn [length].
  destruct (boot_cons fresh first rest tr tf)
    as (s0 & Hb & Hboot & Hc & Hl & _).
  assert (3 ≤ length (slideItems s0)) as Hl3 by lia.
  pose proof (N.Div0.mul_div_le t 3000) as Hlo.
  pose proof (N.mul_succ_div_gt t 3000 ltac:(lia)) as Hhi.
  assert (N.of_nat k = (t / 3000)%N) as Hk by (unfold k; lia).
  replace (S (length rest) + 1) with (length (slideItems s0) - 1) by lia.
  set (m := length (slideItems s0) - 1).
  assert (m = S (length rest) + 1) as Hm by (unfold m; lia).
  pose proof (Nat.mod_upper_bound k m ltac:(lia)) as Hmod.
  assert (∀ s c,
            slideItems s = slideItems s0 → currentIndex s = c →
            c ≤ S (length rest) + 2 →
            (shown s = None ↔ c = S (length rest) + 2)) as Hshown.
  { intros s c Hs <- Hle. unfold shown.
    rewrite fmap_None, Hs, lookup_ge_None, Hl. lia. }
  exists (ticked s0 0).
  destruct (decide (t < 3000 * N.of_nat k + 500)%N) as [Hearly|Hlate].
  - exists (ticked s0 k). split; [done|].
    split; [apply at_time_ticked; lia|]. cbn [page ticked].
    pose proof (after_tick_slideItems s0 k) as Hitems.
    split; [done|]. split; [by rewrite Hitems|].
    assert (currentIndex (after_tick s0 k) =
            if decide (0 < k ∧ k mod m = 0 ∧
                       (t < 3000 * N.of_nat k + 500)%N)
            then S (length rest) + 2 else 1 + k mod m) as Hcur.
    { destruct k as [|j].
      - rewrite decide_False by lia. rewrite Nat.Div0.mod_0_l.
        cbn [after_tick]. by rewrite Hc.
      - rewrite (after_tick_cursor s0 Hc), mod_succ by lia. fold m.
        pose proof (Nat.mod_upper_bound j m ltac:(lia)).
        repeat case_decide; lia. }
    split; [done|]. apply Hshown; [done|done|].
    rewrite Hcur. case_decide; lia.
  - exists (settled s0 k). split; [done|].
    split; [apply at_time_settled; lia|]. cbn [page settled].
    rewrite settle_slideItems.
    pose proof (after_tick_slideItems s0 k) as Hitems.
    split; [done|]. split; [by rewrite Hitems|].
    rewrite (settle_cursor s0 Hc) by lia. fold m.
    rewrite decide_False by tauto. split; [done|].
    apply Hshown; [by rewrite settle_slideItems| |lia].
    rewrite (settle_cursor s0 Hc) by lia. done.
Qed.

End TimelineFacts.

(** ** The header on scroll, and the debounced listeners *)

Module ScrollEffectsFacts.
Import Navigation Handlers ScrollEffects HandlersFacts.




(** In a burst of scroll events, each less than 10 ms after the one
    before, only the first reaches [updateHeader]: after the burst the
    header is as the scroll position of the first event left it. *)
Theorem scrolled_burst (e : N * Qc) events s :
  Debounce.burst debounceDelay e.1 events →
  scrolled (e :: events) s = updateHeader e.2 s.
Proof.
  intros Hburst. unfold scrolled.
  rewrite DebounceFacts.run_cons_leading, DebounceFacts.leading_burst
    by done.
  destruct (header s) eqn:Hh; [done|].
  unfold updateHeader. by rewrite Hh.
Qed.

(** In a burst of resize events, each less than 250 ms after the one
    before, only the first reaches [handleResize]: the menu is closed or
    not by the width at the start of the burst. *)
Theorem resized_burst (e : N * viewport) events s :
  Debounce.burst 250 e.1 events →
  resized (e :: events) s = (handleResize e.2 s).1.
Proof.
  intros Hburst. unfold resized.
  by rewrite DebounceFacts.run_cons_leading, DebounceFacts.leading_burst
    by done.
Qed.

(** A viewport is never both mobile and tablet, and on either the
    resize listener leaves the menu alone: it closes an open menu
    exactly when the viewport is wider than 768 px. *)
Theorem handleResize_spec (v : viewport) (s : Navigation.state) :
  isMobile v && isTablet v = false ∧
  handleResize v s =
    (if negb (isMobile v || isTablet v) && isMenuOpen s
     then closeMobileMenu s else (s, Normal)).
Proof.
  unfold isMobile, isTablet, handleResize, mobile, tablet.
  split; repeat case_bool_decide; simpl; try done; lia.
Qed.

Lemma scrolled_burst_witness :
  Debounce.burst debounceDelay 0 [(4%N, Qc_of_Z 30); (9%N, Qc_of_Z 400)] ∧
  scrolled [(0%N, Qc_of_Z 0); (4%N, Qc_of_Z 30); (9%N, Qc_of_Z 400)]
    (State 0%Qc (Some (Element ["header"] ∅ ∅))) =
  updateHeader (Qc_of_Z 0) (State 0%Qc (Some (Element ["header"] ∅ ∅))).
Proof.
  split; [simpl; unfold debounceDelay; lia|].
  apply (scrolled_burst (0%N, Qc_of_Z 0)). simpl. unfold debounceDelay. lia.
Defined.

Lemma resized_burst_witness :
  Debounce.burst 250 0
    [(100%N, Viewport (Some 900%Z) (Some 900%Z))] ∧
  resized [(0%N, Viewport (Some 700%Z) (Some 700%Z));
           (100%N, Viewport (Some 900%Z) (Some 900%Z))] opened_page =
  (handleResize (Viewport (Some 700%Z) (Some 700%Z)) opened_page).1.
Proof.
  split; [simpl; lia|].
  apply (resized_burst (0%N, Viewport (Some 700%Z) (Some 700%Z))).
  simpl. lia.
Defined.

End ScrollEffectsFacts.

(** ** The form handler *)

Module FormHandlerFacts.
Import Form Regex FormHandler.

Lemma assign_lookup k v data k' :
  assign k v data !! k' =
  if decide (k = k' ∧ k ≠ lit "__proto__") then Some v else data !! k'.
Proof.
  unfold assign. case_decide as Hproto.
  - rewrite decide_False; [done|]. tauto.
  - destruct (decide (k = k')) as [->|Hne].
    + by rewrite lookup_insert_eq, decide_True.
    + rewrite lookup_insert_ne by done. rewrite decide_False; [done|tauto].
Qed.

(** [getFormData] holds, under each key other than [__proto__], the
    trimmed value of the last input with that key (its name or, for
    want of a name, its type), and nothing under any other key. *)
Theorem getFormData_lookup (inputs : list input) (k : jsstring) :
  getFormData inputs !! k =
  if decide (k = lit "__proto__") then None
  else (λ i, trim (value i)) <$> last (filter (λ i, key i = k) inputs).
Proof.
  unfold getFormData.
  induction inputs as [|i inputs IH] using rev_ind.
  - simpl. rewrite lookup_empty. by case_decide.
  - rewrite foldl_snoc, assign_lookup, IH, filter_app.
    rewrite filter_cons, filter_nil.
    destruct (decide (key i = k)) as [<-|Hne].
    + case_decide as Hproto.
      * rewrite decide_False; [done|]. tauto.
      * rewrite decide_True by done. by rewrite last_snoc.
    + rewrite decide_False by tauto. by rewrite app_nil_r.
Qed.

(** [validateField] marks the field as in error exactly when it answers
    false; it answers true exactly when a required field is not blank
    and an e-mail field is blank or matches the e-mail pattern; the
    value stays as typed, and validating again changes nothing. *)
Theorem validateField_spec (f : input) :
  let value := trim (value f) in
  let f' := (validateField f).1 in
  let isValid := (validateField f).2 in
  (isValid = true ↔
   (required f = true → value ≠ []) ∧
   (type f = lit "email" → value ≠ [] → isValidEmail value = true)) ∧
  (ariaInvalid f' = Some "true" ↔ isValid = false) ∧
  (borderColor f' = "#ef4444" ↔ isValid = false) ∧
  FormHandler.value f' = FormHandler.value f ∧
  validateField f' = (f', isValid).
Proof.
  assert (∀ x : jsstring, x ≠ [] ↔ truthy x = true) as Htruthy
    by (by intros []).
  unfold validateField. cbn [fst snd].
  rewrite !Htruthy.
  destruct (required f) eqn:Hreq, (truthy (trim (value f))) eqn:Hval,
    (bool_decide (type f = lit "email")) eqn:Htype,
    (isValidEmail (trim (value f))) eqn:Hmail;
    try apply bool_decide_eq_true in Htype;
    try apply bool_decide_eq_false in Htype;
    cbn [andb negb setFieldError clearFieldError ariaInvalid borderColor
           FormHandler.value required type];
    rewrite ?Hreq, ?Hval, ?Hmail, ?bool_decide_true, ?bool_decide_false
      by done;
    cbn [andb negb];
    clear Htruthy; (split_and!; [intuition congruence|done..]).
Qed.





Lemma getFormData_no_key (inputs : list input) (k : jsstring) :
  Forall (λ i, key i ≠ k) inputs → getFormData inputs !! k = None.
Proof.
  unfold getFormData.
  induction inputs as [|i inputs IH] using rev_ind; intros Hkeys.
  - apply lookup_empty.
  - apply Forall_app in Hkeys as [Hkeys Hi].
    rewrite Forall_singleton in Hi.
    rewrite foldl_snoc, assign_lookup, decide_False by (by intros [? _]).
    by apply IH.
Qed.

(** [getFormData] files an input under its name when it has one, while
    [validateForm] looks under [text], [email] and [textarea], the three
    types.  So when every input of the form has a name other than these,
    the form is rejected with all three fields reported as missing,
    whatever has been typed. *)
Theorem validateForm_named_inputs (inputs : list input) :
  Forall (λ i, name i ≠ [] ∧
               name i ∉ [lit "text"; lit "email"; lit "textarea"]) inputs →
  validateForm (getFormData inputs) =
  ([ClearFieldErrors; SetFieldError NameInput; SetFieldError EmailInput;
    SetFieldError MessageInput;
    ShowError (join [lit "Name is required"; lit "Email is required";
                     lit "Message is required"])],
   false).
Proof.
  intros Hnames.
  assert (∀ k, k ∈ [lit "text"; lit "email"; lit "textarea"] →
               getFormData inputs !! k = None) as Hnone.
  { intros k Hk. apply getFormData_no_key.
    eapply Forall_impl; [exact Hnames|]. simpl. intros i [Hne Hnot].
    unfold key. destruct (name i) as [|c n] eqn:Hn; [done|].
    simpl. by intros <-. }
  unfold validateForm.
  rewrite !Hnone by (rewrite !elem_of_cons; tauto). done.
Qed.

Lemma validateForm_named_inputs_witness :
  Forall (λ i, name i ≠ [] ∧
               name i ∉ [lit "text"; lit "email"; lit "textarea"])
    [Input (lit "fullname") (lit "text") (lit "Ann") true "" None;
     Input (lit "mail") (lit "email") (lit "ann@example.org") true "" None;
     Input (lit "body") (lit "textarea") (lit "hello") true "" None] ∧
  validateForm
    (getFormData
       [Input (lit "fullname") (lit "text") (lit "Ann") true "" None;
        Input (lit "mail") (lit "email") (lit "ann@example.org") true ""
          None;
        Input (lit "body") (lit "textarea") (lit "hello") true "" None]) =
  ([ClearFieldErrors; SetFieldError NameInput; SetFieldError EmailInput;
    SetFieldError MessageInput;
    ShowError (join [lit "Name is required"; lit "Email is required";
                     lit "Message is required"])],
   false).
Proof.
  assert (Forall (λ i, name i ≠ [] ∧
                       name i ∉ [lit "text"; lit "email"; lit "textarea"])
            [Input (lit "fullname") (lit "text") (lit "Ann") true "" None;
             Input (lit "mail") (lit "email") (lit "ann@example.org") true
               "" None;
             Input (lit "body") (lit "textarea") (lit "hello") true ""
               None]) as Hnames.
  { repeat constructor; try done; simpl;
      rewrite !elem_of_cons, elem_of_nil; intros [?|[?|[?|?]]]; done. }
  split; [exact Hnames|]. exact (validateForm_named_inputs _ Hnames).
Defined.

End FormHandlerFacts.

(** ** More on the banner rotator and the contact form *)

Module ScriptFacts.
Import EventLoopFacts.


Import Form.

Lemma click_filled now s n e m :
  document s !! "name-input" = Some (Field n) →
  document s !! "email" = Some (Field e) →
  document s !! "message" = Some (Field m) →
  click now (World [] s) =
  if truthy (trim (value n)) && truthy (trim (value e))
     && truthy (trim (value m))
  then World [Timer (now + 0) ResetForm None]
         (alert (thanks (trim (value n)) (trim (value e))) s)
  else World [] (alert please_fill s).
Proof.
  intros Hn He Hm. unfold click. rewrite dispatch_eq.
  cbn [page timers run]. unfold formValidation, trimmed_value.
  rewrite Hn, He, Hm.
  by destruct (truthy (trim (value n)) && truthy (trim (value e))
               && truthy (trim (value m))).
Qed.

(** A second click on the submit button, after a first one that went
    through, meets the form as the reset left it: when the three fields
    belong to the form, the second alert is decided by their default
    values, and is the fill-out-all-fields alert whenever one of the
    defaults is blank. *)
Theorem second_click_meets_reset_form (t1 t2 : N) (s : state)
    (n e m : control) :
  document s !! "name-input" = Some (Field n) →
  document s !! "email" = Some (Field e) →
  document s !! "message" = Some (Field m) →
  document s !! "contact-form" = Some FormElement →
  owner n = Some "contact-form" →
  owner e = Some "contact-form" →
  owner m = Some "contact-form" →
  trim (value n) ≠ [] → trim (value e) ≠ [] → trim (value m) ≠ [] →
  (t1 ≤ t2)%N →
  ∃ w,
    at_time t2 (click t1 (World [] s)) = Some w ∧
    alerts (page (click t2 w)) =
    alerts s ++
    [thanks (trim (value n)) (trim (value e));
     if truthy (trim (defaultValue n)) && truthy (trim (defaultValue e))
        && truthy (trim (defaultValue m))
     then thanks (trim (defaultValue n)) (trim (defaultValue e))
     else please_fill].
Proof.
  intros Hn He Hm Hform On Oe Om Vn Ve Vm Ht.
  assert (∀ x : jsstring, x ≠ [] → truthy x = true) as Htruthy
    by (by intros []).
  rewrite (click_filled t1 s n e m) by done.
  rewrite !Htruthy by done. cbn [andb].
  unfold at_time, EventLoop.at_time.
  erewrite run_until_fire; [|done|simpl; lia].
  rewrite fire_cons. cbn [handler every run fst snd foldl].
  cbn [mbind option_bind]. rewrite run_until_idle by done.
  eexists. split; [done|].
  unfold resetForm, alert. cbn [document alerts uncaught].
  rewrite Hform.
  erewrite (click_filled t2 _
              (Control (defaultValue n) (defaultValue n) (owner n))
              (Control (defaultValue e) (defaultValue e) (owner e))
              (Control (defaultValue m) (defaultValue m) (owner m)));
    cbn [document value].
  - destruct (truthy (trim (defaultValue n))
              && truthy (trim (defaultValue e))
              && truthy (trim (defaultValue m)));
      cbn [page alert alerts]; by rewrite <- app_assoc.
  - rewrite lookup_fmap, Hn. cbn. by rewrite decide_True.
  - rewrite lookup_fmap, He. cbn. by rewrite decide_True.
  - rewrite lookup_fmap, Hm. cbn. by rewrite decide_True.
Qed.

Lemma second_click_meets_reset_form_witness :
  ∃ w,
    at_time 2000 (click 1000 (World [] filled)) = Some w ∧
    alerts (page (click 2000 w)) =
    alerts filled ++
    [thanks (trim (lit " Ann ")) (trim (lit "nobody"));
     if truthy (trim (lit "")) && truthy (trim (lit ""))
        && truthy (trim (lit "Your message"))
     then thanks (trim (lit "")) (trim (lit ""))
     else please_fill].
Proof.
  apply (second_click_meets_reset_form 1000 2000 filled
           (Control (lit " Ann ") (lit "") (Some "contact-form"))
           (Control (lit "nobody") (lit "") (Some "contact-form"))
           (Control (lit "hello") (lit "Your message")
              (Some "contact-form")));
    try done; try (by vm_compute); lia.
Defined.

End ScriptFacts.

(** ** What the menu listeners leave alone *)

Module FrameFacts.
Import Navigation Handlers NavigationFacts HandlersFacts.

Lemma same_rest_refl e : same_rest e e.
Proof. done. Qed.

Lemma same_rest_trans e1 e2 e3 :
  same_rest e1 e2 → same_rest e2 e3 → same_rest e1 e3.
Proof.
  intros (Hc & Ha & Hs) (Hc' & Ha' & Hs'). split_and!.
  - intros tok ??. by rewrite Hc', Hc.
  - intros k ??. by rewrite Ha', Ha.
  - intros k ?. by rewrite Hs', Hs.
Qed.

Lemma framed_refl s : framed s s.
Proof. split; [done|]. intros r. by destruct (store s !! r). Qed.

(** The six writes of the menu each stay within those bounds. *)
Definition menu_write (f : element → element) : Prop :=
  ∀ e, same_rest e (f e).

Lemma menu_write_add tok :
  tok = "active" ∨ tok = "mobile-menu-open" → menu_write (classList_add tok).
Proof.
  intros Htok e. split_and!; [|done..]. intros tok' ??.
  rewrite classList_add_elem. destruct Htok as [-> | ->]; tauto.
Qed.

Lemma menu_write_remove tok :
  tok = "active" ∨ tok = "mobile-menu-open" →
  menu_write (classList_remove tok).
Proof.
  intros Htok e. split_and!; [|done..]. intros tok' ??.
  rewrite classList_remove_elem. destruct Htok as [-> | ->]; tauto.
Qed.

Lemma menu_write_attribute k v :
  k = "aria-expanded" ∨ k = "aria-hidden" → menu_write (setAttribute k v).
Proof.
  intros Hk e. split_and!; [done| |done]. intros k' ??. cbn.
  rewrite lookup_insert_ne; [done|]. by destruct Hk as [-> | ->].
Qed.

Lemma menu_write_style v : menu_write (set_style "overflow" v).
Proof.
  intros e. split_and!; [done..|]. intros k' ?. cbn.
  by rewrite lookup_insert_ne.
Qed.

Lemma update_framed p f s s1 s2 :
  menu_write f → framed s s1 → update (ref p) f s1 = Some s2 →
  framed s s2.
Proof.
  intros Hf [Hrefs Hstore] Hu. split.
  - intros q. by rewrite (update_ref _ _ _ _ q Hu).
  - intros r0. specialize (Hstore r0).
    apply update_inv in Hu as (r & e & Hr & He & ->). cbn [store].
    destruct (decide (r0 = r)) as [->|Hne].
    + rewrite lookup_insert_eq. rewrite He in Hstore.
      destruct (store s !! r) as [e0|]; [|done].
      destruct Hstore as [Hsame _]. split.
      * eapply same_rest_trans; [exact Hsame|apply Hf].
      * intros Hfree. destruct (Hfree p). by rewrite <- Hrefs.
    + by rewrite lookup_insert_ne.
Qed.

Lemma flag_framed b s s1 :
  framed s s1 →
  framed s (State b (store s1) (mobileToggle s1) (nav s1) (body s1)).
Proof.
  intros [Hrefs Hstore]. split; [|done].
  intros p. rewrite <- Hrefs. by destruct p.
Qed.

Lemma openMobileMenu_framed s : framed s (openMobileMenu s).1.
Proof.
  rewrite openMobileMenu_body.
  destruct (isMenuOpen s); [apply framed_refl|].
  apply (exec_keeps (framed s)); [|apply framed_refl].
  repeat apply Forall_cons_2; [..|apply Forall_nil_2].
  - intros s1 s2 Hf [= <-]. by apply flag_framed.
  - intros s1 s2 Hf. apply update_framed; [|done].
    apply menu_write_add. by left.
  - intros s1 s2 Hf. apply update_framed; [|done].
    apply menu_write_add. by right.
  - intros s1 s2 Hf. apply update_framed; [|done]. apply menu_write_style.
  - intros s1 s2 Hf. apply update_framed; [|done].
    apply menu_write_attribute. by left.
  - intros s1 s2 Hf. apply update_framed; [|done].
    apply menu_write_attribute. by right.
Qed.

Lemma closeMobileMenu_framed s : framed s (closeMobileMenu s).1.
Proof.
  rewrite closeMobileMenu_body.
  destruct (isMenuOpen s); [|apply framed_refl]. cbn [negb].
  apply (exec_keeps (framed s)); [|apply framed_refl].
  repeat apply Forall_cons_2; [..|apply Forall_nil_2].
  - intros s1 s2 Hf [= <-]. by apply flag_framed.
  - intros s1 s2 Hf. apply update_framed; [|done].
    apply menu_write_remove. by left.
  - intros s1 s2 Hf. apply update_framed; [|done].
    apply menu_write_remove. by right.
  - intros s1 s2 Hf. apply update_framed; [|done]. apply menu_write_style.
  - intros s1 s2 Hf. apply update_framed; [|done].
    apply menu_write_attribute. by left.
  - intros s1 s2 Hf. apply update_framed; [|done].
    apply menu_write_attribute. by right.
Qed.

Lemma framed_trans s1 s2 s3 : framed s1 s2 → framed s2 s3 → framed s1 s3.
Proof.
  intros [Hr Hs] [Hr' Hs']. split.
  - intros p. by rewrite Hr', Hr.
  - intros r. specialize (Hs r). specialize (Hs' r).
    destruct (store s1 !! r) as [e1|], (store s2 !! r) as [e2|],
      (store s3 !! r) as [e3|]; try done.
    destruct Hs as [Hsame Hfree], Hs' as [Hsame' Hfree']. split.
    + by eapply same_rest_trans.
    + intros Hp. rewrite Hfree', Hfree; [done..|].
      intros p. rewrite Hr. apply Hp.
Qed.

Section Tree.
Variable contains : nat → nat → bool.

Lemma listener_framed ev s : framed s (listener contains ev s).1.
Proof.
  destruct ev as [| |target|key|v|startY endY]; cbn [listener].
  - unfold toggleMobileMenu.
    destruct (isMenuOpen s);
      [apply closeMobileMenu_framed|apply openMobileMenu_framed].
  - apply closeMobileMenu_framed.
  - unfold handleOutsideClick.
    destruct (negb (isMenuOpen s)); [apply framed_refl|].
    destruct (contains_target contains (nav s) target) as [a|];
      [|apply framed_refl].
    destruct (contains_target contains (mobileToggle s) target) as [b|];
      [|apply framed_refl].
    destruct (negb a && negb b);
      [apply closeMobileMenu_framed|apply framed_refl].
  - unfold handleEscapeKey.
    destruct (bool_decide (key = "Escape") && isMenuOpen s);
      [apply closeMobileMenu_framed|apply framed_refl].
  - unfold handleResize.
    destruct (bool_decide (tablet < getViewportWidth v)%Z && isMenuOpen s);
      [apply closeMobileMenu_framed|apply framed_refl].
  - unfold handleSwipe.
    destruct (bool_decide (50 < Z.abs (startY - endY))%Z
              && bool_decide (0 < startY - endY)%Z);
      [|apply framed_refl].
    destruct (isMenuOpen s);
      [apply closeMobileMenu_framed|apply framed_refl].
Qed.

(** Whatever the listeners of the menu are called with, on any page,
    also one that lacks an element so that a listener raises: the
    references stay as they are, no element appears or disappears, an
    element no reference leads to stays as it is, and on the others
    nothing changes but the classes [active] and [mobile-menu-open],
    the attributes [aria-expanded] and [aria-hidden] and the style
    property [overflow]. *)
Theorem listeners_framed evs s : framed s (listeners contains evs s).
Proof.
  revert s. induction evs as [|ev evs IH]; intros s; [apply framed_refl|].
  cbn [listeners foldl]. eapply framed_trans; [apply listener_framed|].
  apply IH.
Qed.

End Tree.
End FrameFacts.

(** ** The reveal animations *)

Module AnimationsFacts.
Import Animations EventLoopFacts.

Lemma enqueue_last {Cb} (u : timer Cb) q :
  Forall (λ v, due v ≤ due u)%N q → enqueue u q = q ++ [u].
Proof.
  induction 1 as [|v q Hv _ IH]; simpl; [done|].
  rewrite decide_False by lia. by rewrite IH.
Qed.

Lemma animateElement_twice e :
  animateElement (animateElement e) = animateElement e.
Proof. done. Qed.

Section Fallback.
Context (now : N) (elements : list nat) (page0 : gmap nat style).

(** The timer of the element at [index]. *)
Definition reveal (index element : nat) : timer callback :=
  Timer (now + N.of_nat index * stagger) (Animate element) None.

Lemma fallback_timers :
  foldl (setTimeout now) []
    (imap (λ index element,
             ((N.of_nat index * stagger)%N, Animate element))
       elements) =
  imap reveal elements.
Proof.
  induction elements as [|r l IH] using rev_ind; [done|].
  rewrite !imap_app, foldl_app, IH. cbn [imap foldl].
  unfold setTimeout. cbn [fst snd]. rewrite Nat.add_0_r.
  apply enqueue_last. apply Forall_forall. intros u Hu.
  apply list_elem_of_lookup in Hu as [i Hi].
  rewrite list_lookup_imap in Hi.
  destruct (l !! i) as [x|] eqn:Hx; [|done]. injection Hi as <-.
  apply lookup_lt_Some in Hx. unfold reveal, stagger. simpl. lia.
Qed.

(** The world once the first [k] timers have fired. *)
Definition fired (k : nat) : world (gmap nat style) callback :=
  World (drop k (imap reveal elements))
    (foldl (λ page r, alter animateElement r page) page0
       (take k elements)).

Lemma fire_fired k :
  k < length elements → fire run (fired k) = Some (fired (S k)).
Proof.
  intros Hk. destruct (lookup_lt_is_Some_2 elements k Hk) as [r Hr].
  unfold fired.
  rewrite (drop_S _ (reveal k r)) by (by rewrite list_lookup_imap, Hr).
  rewrite fire_cons. cbn [handler every run fst snd foldl reveal].
  by rewrite (take_S_r _ _ r), foldl_app by done.
Qed.

Lemma run_until_fired j : ∀ k fuel t,
  k + j ≤ length elements →
  (0 < j → (now + N.of_nat (k + j - 1) * stagger ≤ t)%N) →
  (k + j < length elements →
   (t < now + N.of_nat (k + j) * stagger)%N) →
  j ≤ fuel →
  run_until run fuel t (fired k) = Some (fired (k + j)).
Proof.
  induction j as [|j IH]; intros k fuel t Hn Hlo Hhi Hfuel.
  - rewrite Nat.add_0_r in *. apply run_until_idle. unfold fired.
    cbn [timers]. intros u Hu.
    rewrite head_lookup, lookup_drop, Nat.add_0_r, list_lookup_imap in Hu.
    destruct (elements !! k) as [r|] eqn:Hr; [|done].
    injection Hu as <-. apply lookup_lt_Some in Hr. simpl. lia.
  - destruct fuel as [|fuel]; [lia|].
    destruct (lookup_lt_is_Some_2 elements k ltac:(lia)) as [r Hr].
    erewrite run_until_fire.
    + rewrite fire_fired by lia. cbn [mbind option_bind].
      replace (k + S j) with (S k + j) in * by lia.
      apply IH; [lia| |done|lia].
      intros _. unfold stagger in *.
      destruct j as [|j]; [|apply Hlo; lia].
      specialize (Hlo ltac:(lia)).
      replace (S k + 0 - 1) with k in * by lia. lia.
    + unfold fired. cbn [timers].
      by rewrite (drop_S _ (reveal k r))
        by (by rewrite list_lookup_imap, Hr).
    + specialize (Hlo ltac:(lia)). cbn [due reveal].
      unfold stagger in *. lia.
Qed.

Lemma fired_lookup k r :
  page (fired k) !! r =
  if decide (r ∈ take k elements) then animateElement <$> page0 !! r
  else page0 !! r.
Proof.
  unfold fired. cbn [page]. generalize (take k elements). intros l.
  induction l as [|x l IH] using rev_ind.
  - destruct (decide (r ∈ [])) as [Hin|_]; [|done].
    by apply elem_of_nil in Hin.
  - rewrite foldl_app. cbn [foldl].
    destruct (decide (r ∈ l ++ [x])) as [Hin|Hout];
      rewrite elem_of_app, list_elem_of_singleton in *.
    + destruct (decide (x = r)) as [->|Hne].
      * rewrite lookup_alter_eq, IH. case_decide; [|done].
        by destruct (page0 !! r).
      * rewrite lookup_alter_ne, IH by done.
        rewrite decide_True; [done|]. by destruct Hin.
    + rewrite lookup_alter_ne, IH by (intros ->; tauto).
      rewrite decide_False; [done|]. tauto.
Qed.

End Fallback.

(** Without an intersection observer, [fallbackAnimations] reveals the
    elements one by one, in the order of the two lists and 100 ms
    apart: at any time [t], an element is revealed exactly when it
    stands at some index [i] with [now + 100 i <= t]; an element that
    stands in both lists is revealed at its first turn. *)
Theorem fallback_reveals now sections animatedCards page0 (t : N) :
  let elements := sections ++ animatedCards in
  ∃ w,
    at_time t (fallbackAnimations now sections animatedCards page0) =
      Some w ∧
    (∀ r i, elements !! i = Some r →
            (now + N.of_nat i * stagger ≤ t)%N →
            page w !! r = animateElement <$> page0 !! r) ∧
    (∀ r, (∀ i, elements !! i = Some r →
                (t < now + N.of_nat i * stagger)%N) →
          page w !! r = page0 !! r).
Proof.
  intros elements. unfold fallbackAnimations. fold elements.
  rewrite fallback_timers.
  set (n := length elements).
  set (c := if decide (t < now)%N then 0
            else n `min` S (N.to_nat ((t - now) / stagger))).
  assert (c ≤ n) as Hcn by (unfold c; case_decide; lia).
  pose proof (N.Div0.mul_div_le (t - now) stagger) as Hlo.
  pose proof (N.mul_succ_div_gt (t - now) stagger ltac:(done)) as Hhi.
  unfold stagger in *.
  assert (∀ i, i < c ↔ i < n ∧ (now + N.of_nat i * 100 ≤ t)%N) as Hc.
  { intros i. unfold c. case_decide; [lia|].
    split.
    - intros Hi. split; [lia|]. nia.
    - intros [Hi Hle]. apply Nat.min_glb_lt; [done|]. nia. }
  exists (fired now elements page0 c). split.
  - unfold at_time, EventLoop.at_time.
    change (World (imap (reveal now) elements) page0)
      with (fired now elements page0 0).
    apply (run_until_fired now elements page0 c 0);
      rewrite ?Nat.add_0_l; unfold stagger; [done| | |].
    + intros Hpos. assert (c - 1 < c) as Hlt by lia.
      apply Hc in Hlt. tauto.
    + intros Hlt. destruct (decide (t < now + N.of_nat c * 100)%N);
        [done|]. assert (c < c) by (apply Hc; lia). lia.
    + unfold c. case_decide; [lia|].
      etrans; [apply Nat.le_min_r|]. apply le_n_S.
      assert ((t - now) `div` 100 ≤ t)%N; [|lia].
      etrans; [apply N.Div0.div_le_upper_bound with (q := (t - now)%N)|];
        lia.
  - split.
    + intros r i Hi Ht. rewrite fired_lookup.
      rewrite decide_True; [done|].
      apply list_elem_of_lookup. exists i.
      rewrite lookup_take_lt; [done|].
      apply Hc. split; [by eapply lookup_lt_Some|done].
    + intros r Hr. rewrite fired_lookup.
      rewrite decide_False; [done|]. intros Hin.
      apply list_elem_of_lookup in Hin as [i Hi].
      apply lookup_take_Some in Hi as [Hi Hlt].
      apply Hc in Hlt as [_ Hle]. specialize (Hr i Hi). lia.
Qed.

End AnimationsFacts.
